(** * failure-test-utils: fault generators and the fault-injecting TCP relay

    A shallow embedding of the Go packages [failuregen]
    (failure_generator.go and the assured failure plan exercised by
    assured_failure_test.go) and [testutil] (tcpproxy.go), followed by the
    properties established about them.

    Conventions.
    - Go's [float32] is IEEE-754 binary32, embedded with the Standard
      Library's [spec_float] at precision 24 and maximal exponent 128, so
      that products are rounded exactly as the hardware rounds them.
    - Go's [int32] and [int] values are integers of [Z]; no arithmetic of the
      modelled code can leave the 32-bit range except the float conversion,
      whose out-of-range result is written out.
    - A Go [error] result is an [option error] ([None] is [nil]).
    - A call that may panic returns a [result].
    - Side effects (the pseudo-random source, sleeping, the relay counters,
      the sockets) are threaded explicitly through a state. *)

From Stdlib Require Import ZArith QArith Lia Bool List.
From Stdlib Require Import Floats.SpecFloat.
From Stdlib Require Strings.Byte.
From Stdlib Require Import Ascii.
From stdpp Require Import gmap strings list.

Open Scope Z_scope.

(** ** Errors, results and the effect monad *)

Definition float32 : Type := spec_float.

(** The error values the two packages create or inspect.  [Wrap e msg] is
    [errors.Wrap(e, msg)]; [errInvalidProbability p] and [errInvalidDelay d]
    are the two [errors.Errorf] values of failure_generator.go with their
    formatted argument; [net_OpError timeout] is a [*net.OpError] whose
    [Timeout()] method answers [timeout]; [errOther] is any other error of
    the runtime. *)
Inductive error : Type :=
| errInjectedFailure
| errInvalidProbability (p : float32)
| errInvalidDelay (d : Z)
| io_EOF
| net_OpError (timeout : bool)
| errOther (msg : string)
| Wrap (e : error) (msg : string).

Inductive result (A : Type) : Type :=
| Returned (a : A)
| Panicked (msg : string).
Arguments Returned {A} a.
Arguments Panicked {A} msg.

(** What a generator can touch outside its own fields: the process-wide
    pseudo-random source of [math/rand] (an arbitrary sequence of raw draws
    and the position reached in it) and the time spent in [time.Sleep], in
    nanoseconds, one entry per call, most recent first. *)
Record world : Type := World {
  rand_src : nat -> Z;
  rand_pos : nat;
  slept : list Z
}.

(** Code that reads and writes a state of type [S] and may panic. *)
Definition StateM (S A : Type) : Type := S -> result (A * S).

Definition ret {S A} (a : A) : StateM S A := fun s => Returned (a, s).

Definition bind {S A B} (m : StateM S A) (k : A -> StateM S B) : StateM S B :=
  fun s =>
    match m s with
    | Returned (a, s') => k a s'
    | Panicked msg => Panicked msg
    end.

Definition panic {S A} (msg : string) : StateM S A := fun _ => Panicked msg.

Definition get {S} : StateM S S := fun s => Returned (s, s).

Definition modify {S} (f : S -> S) : StateM S unit :=
  fun s => Returned (tt, f s).

Abbreviation M := (StateM world).

Declare Scope go_scope.
Delimit Scope go_scope with go.
Notation "'let*' x ':=' m 'in' k" := (bind m (fun x => k))
  (at level 10, x pattern, m at level 100, k at level 200) : go_scope.
Notation "'do' m 'then' k" := (bind m (fun _ => k))
  (at level 10, m at level 100, k at level 200) : go_scope.

(** ** Package failuregen *)

Module failuregen.

(** [float32] constants and operations used by the package. *)
Definition f32_prec : Z := 24.
Definition f32_emax : Z := 128.

Definition f32_zero : float32 := S754_zero false.
Definition f32_one : float32 := S754_finite false 8388608 (-23).
Definition f32_lt (x y : float32) : bool := SFltb x y.
Definition f32_mul (x y : float32) : float32 := SFmul f32_prec f32_emax x y.

(** [float32(n)] for an integer [n]: rounding to nearest, ties to even. *)
Definition f32_of_int (n : Z) : float32 :=
  binary_normalize f32_prec f32_emax n 0 false.

Definition int32_min : Z := -2147483648.
Definition int32_max : Z := 2147483647.

(** The result of converting to [int32] a float that has no [int32] value
    (NaN, an infinity, a magnitude of 2^31 or more).  Go leaves it to the
    implementation; this is what the amd64 conversion instruction gives. *)
Definition int32_indefinite : Z := int32_min.

(** [int32(x)] for a [float32] [x]: the fraction is discarded (truncation
    towards zero). *)
Definition int32_of_f32 (x : float32) : Z :=
  match x with
  | S754_zero _ => 0
  | S754_finite s m e =>
      let a := Z.shiftl (Zpos m) e in
      let v := if s then - a else a in
      if (int32_min <=? v) && (v <=? int32_max) then v else int32_indefinite
  | S754_infinity _ | S754_nan => int32_indefinite
  end.

(** [OneMillion] is a convenient constant for 1M. *)
Definition OneMillion : Z := 1000000.

(** [time.Microsecond], in the nanoseconds of [time.Duration]. *)
Definition Microsecond : Z := 1000.

(** [rand.Int31n(n)]: panics when [n <= 0], otherwise consumes one draw of
    the source and returns a value of [[0, n)]. *)
Definition Int31n (n : Z) : M Z :=
  fun w =>
    if n <=? 0 then Panicked "invalid argument to Int31n"
    else Returned (rand_src w (rand_pos w) mod n,
                   World (rand_src w) (S (rand_pos w)) (slept w)).

(** [time.Sleep(d)]. *)
Definition time_Sleep (d : Z) (w : world) : world :=
  World (rand_src w) (rand_pos w) (d :: slept w).

(** [DelayConfig] to be used for injecting delays to make races likely. *)
Record DelayConfig : Type := {
  MaxDelayMicros : Z;
  DelayProbability : float32
}.

(** The [FailureGenerator] interface, over the type [G] of the receiver's
    state.  A method returns the receiver's state after the call. *)
Class FailureGenerator (G : Type) : Type := {
  SetDelayConfig : DelayConfig -> G -> option error * G;
  SetFailureProbability : float32 -> G -> option error * G;
  FailMaybe : G -> M (option error * G)
}.

(** Modelled from the spec: the [ConditionalFailureGenerator] interface is
    asserted by tcpproxy.go but declared in a file that is not part of the
    sources.  It is the optional capability [FailOnCondition(buffer)] of
    section 4.2, which a generator may satisfy in addition to
    [FailureGenerator]. *)
Class ConditionalFailureGenerator (G : Type) : Type := {
  FailOnCondition : list Byte.byte -> G -> M (option error * G)
}.

(** [ppm] => parts per million;  ppm:10^6 :: percent:100 :: probability:1 *)
Definition ppm (p : float32) : Z * option error :=
  if f32_lt p f32_zero || f32_lt f32_one p
  then (0, Some (errInvalidProbability p))
  else (int32_of_f32 (f32_mul p (f32_of_int OneMillion)), None).

Module FailureGeneratorImpl.

Record t : Type := {
  failurePpm : Z;
  delayPpm : Z;
  maxDelayMicros : Z;
  DelayFn : Z -> world -> world
}.

(** [SetDelayConfig] sets configuration for injecting artificial delay. *)
Definition SetDelayConfig (c : DelayConfig) (fg : t) : option error * t :=
  let '(delayPpm', err) := ppm (DelayProbability c) in
  match err with
  | Some e => (Some (Wrap e "Couldn't compute delay-ppm"), fg)
  | None =>
      if MaxDelayMicros c <? 0
      then (Some (errInvalidDelay (MaxDelayMicros c)), fg)
      else (None,
            {| failurePpm := failurePpm fg;
               delayPpm := delayPpm';
               maxDelayMicros := MaxDelayMicros c;
               DelayFn := DelayFn fg |})
  end.

(** [SetFailureProbability] sets the desired artificial failure
    probability. *)
Definition SetFailureProbability (p : float32) (fg : t) : option error * t :=
  let '(failurePpm', err) := ppm p in
  match err with
  | Some e => (Some (Wrap e "Couldn't compute failure-ppm"), fg)
  | None =>
      (None,
       {| failurePpm := failurePpm';
          delayPpm := delayPpm fg;
          maxDelayMicros := maxDelayMicros fg;
          DelayFn := DelayFn fg |})
  end.

(** [FailMaybe] returns an artificial error with configured probability. *)
Definition FailMaybe (fg : t) : M (option error) :=
  (let* r1 := Int31n OneMillion in
   do (if r1 <? delayPpm fg
       then (let* r := Int31n (maxDelayMicros fg) in
             modify (DelayFn fg (r * Microsecond)))
       else ret tt)
   then
   let* r2 := Int31n OneMillion in
   if r2 <? failurePpm fg then ret (Some errInjectedFailure) else ret None)%go.

End FailureGeneratorImpl.

(** [NewFailureGenerator] creates a new failure-generator. *)
Definition NewFailureGenerator : FailureGeneratorImpl.t :=
  {| FailureGeneratorImpl.failurePpm := 0;
     FailureGeneratorImpl.delayPpm := 0;
     FailureGeneratorImpl.maxDelayMicros := 0;
     FailureGeneratorImpl.DelayFn := time_Sleep |}.

#[export] Instance FailureGeneratorImpl_generator :
  FailureGenerator FailureGeneratorImpl.t := {|
  SetDelayConfig := FailureGeneratorImpl.SetDelayConfig;
  SetFailureProbability := FailureGeneratorImpl.SetFailureProbability;
  FailMaybe := fun fg =>
    (let* e := FailureGeneratorImpl.FailMaybe fg in ret (e, fg))%go
|}.

(** *** Notions the properties of the generator are stated with *)

(** The values of Go's [float32] among the floats of [spec_float]. *)
Definition is_float32 (x : float32) : Prop :=
  valid_binary f32_prec f32_emax x = true.


(** [float32(0.000001)], the float nearest to one part per million:
    8796093 * 2^-43, a little less than 10^-6. *)
Definition f32_millionth : float32 := S754_finite false 8796093 (-43).

(** The number a finite float stands for. *)
Definition f32_value (x : float32) : Q :=
  match x with
  | S754_finite s m e =>
      let v := if 0 <=? e then inject_Z (Zpos m * 2 ^ e)
               else Qmake (Zpos m) (Z.to_pos (2 ^ (- e))) in
      if s then Qopp v else v
  | _ => 0%Q
  end.

(** A call of [FailMaybe] fails when it returns an error. *)
Definition fails {A} (r : result (option error * A)) : Prop :=
  match r with
  | Returned (Some _, _) => True
  | _ => False
  end.

(** A source of draws that are all zero, nothing slept yet. *)
Definition zero_world : world := World (fun _ => 0) 0 [].

(** Modelled from the spec: the generators that satisfy
    [ConditionalFailureGenerator] are not part of the sources.  By section
    4.2, [FailOnCondition] ignores the configured probability, scans the
    supplied buffer for a data-dependent condition and fails if and only if
    the condition holds; the condition here is the occurrence of [pattern]
    in the buffer, found by the naive scan of section 9. *)
Module PatternFailureGenerator.

Record t : Type := {
  base : FailureGeneratorImpl.t;
  pattern : list Byte.byte
}.

Fixpoint has_prefix (pat buf : list Byte.byte) : bool :=
  match pat, buf with
  | [], _ => true
  | _ :: _, [] => false
  | x :: pat', y :: buf' => Byte.eqb x y && has_prefix pat' buf'
  end.

Fixpoint occurs (pat buf : list Byte.byte) : bool :=
  has_prefix pat buf ||
  match buf with
  | [] => false
  | _ :: buf' => occurs pat buf'
  end.

Definition FailOnCondition (buf : list Byte.byte) (g : t) : option error :=
  if occurs (pattern g) buf then Some errInjectedFailure else None.

Definition with_base (g : t) (fg : FailureGeneratorImpl.t) : t :=
  {| base := fg; pattern := pattern g |}.

End PatternFailureGenerator.

#[export] Instance PatternFailureGenerator_generator :
  FailureGenerator PatternFailureGenerator.t := {|
  SetDelayConfig := fun c g =>
    let '(err, fg) :=
      FailureGeneratorImpl.SetDelayConfig c (PatternFailureGenerator.base g) in
    (err, PatternFailureGenerator.with_base g fg);
  SetFailureProbability := fun p g =>
    let '(err, fg) :=
      FailureGeneratorImpl.SetFailureProbability p
        (PatternFailureGenerator.base g) in
    (err, PatternFailureGenerator.with_base g fg);
  FailMaybe := fun g =>
    (let* e := FailureGeneratorImpl.FailMaybe (PatternFailureGenerator.base g) in
     ret (e, g))%go
|}.

#[export] Instance PatternFailureGenerator_conditional :
  ConditionalFailureGenerator PatternFailureGenerator.t := {|
  FailOnCondition := fun buf g =>
    ret (PatternFailureGenerator.FailOnCondition buf g, g)
|}.

(** *** The assured failure plan *)

(** A [FailurePoint] is an opaque string identifier. *)
Definition FailurePoint : Type := string.

(** The files of the machine the plan runs on: path to content; a path
    that is not bound does not exist. *)
Abbreviation filesystem := (gmap string string).

(** Modelled from the spec: [AssuredFailurePlanImpl] and its [FailMaybe]
    are exercised by assured_failure_test.go but implemented in a file that
    is not part of the sources.  The test fixes the one field,
    [PlanFilePath]; sections 3, 4.3 and 6 of the specification fix the
    behaviour: the plan keeps nothing in memory but the path, reads the file
    at every query, takes an absent file and an empty file for the empty
    plan, a list of identifiers for the plan, and anything else for a
    failure at every point. *)
Module AssuredFailurePlanImpl.

Record t : Type := { PlanFilePath : string }.

Section Decoder.

(** The JSON decoding of a list of strings ([encoding/json] in the program):
    [None] when the text is not one. *)
Variable json_Unmarshal : string -> option (list FailurePoint).

(** Modelled from the spec: the content of an existing plan file, read as a
    plan.  Empty content is equivalent to an empty well-formed list. *)
Definition parse_plan (content : string) : option (list FailurePoint) :=
  match content with
  | EmptyString => Some []
  | _ => json_Unmarshal content
  end.

(** Modelled from the spec: [FailMaybe(point)] of section 4.3. *)
Definition FailMaybe (afp : t) (fs : filesystem) (point : FailurePoint)
  : option error :=
  match fs !! PlanFilePath afp with
  | None => None
  | Some content =>
      match parse_plan content with
      | None => Some errInjectedFailure
      | Some plan =>
          if bool_decide (point ∈ plan) then Some errInjectedFailure else None
      end
  end.

(** What a driver and the instrumented program do with a plan, one after
    the other: the driver writes or removes files ([os.WriteFile],
    [os.Remove]), the program queries the plan. *)
Inductive action : Type :=
| WriteFile (path content : string)
| Remove (path : string)
| Query (point : FailurePoint).

(** The files after a sequence of actions, and the answers to its queries
    in order.  A query leaves the files and the plan object as they are. *)
Fixpoint run (afp : t) (fs : filesystem) (acts : list action)
  : filesystem * list (option error) :=
  match acts with
  | [] => (fs, [])
  | WriteFile path content :: acts' => run afp (<[path := content]> fs) acts'
  | Remove path :: acts' => run afp (delete path fs) acts'
  | Query point :: acts' =>
      let '(fs', answers) := run afp fs acts' in
      (fs', FailMaybe afp fs point :: answers)
  end.

End Decoder.

End AssuredFailurePlanImpl.

(** [NewAssuredFailurePlan], with the path the tests then store in it. *)
Definition NewAssuredFailurePlan (path : string) : AssuredFailurePlanImpl.t :=
  {| AssuredFailurePlanImpl.PlanFilePath := path |}.

(** A decoder and an encoder for JSON arrays of strings, enough to run the
    scenarios of the tests: white space, the two-character escapes, no
    unicode escapes.  They stand for [json.Unmarshal] and [json.Marshal]. *)
Module json.

Definition dquote : ascii := ascii_of_nat 34.
Definition backslash : ascii := ascii_of_nat 92.

Definition is_space (c : ascii) : bool :=
  let n := nat_of_ascii c in
  (n =? 32)%nat || (n =? 9)%nat || (n =? 10)%nat || (n =? 13)%nat.

Fixpoint skip_space (s : string) : string :=
  match s with
  | String c s' => if is_space c then skip_space s' else s
  | EmptyString => s
  end.

Definition unescape (c : ascii) : option ascii :=
  let n := nat_of_ascii c in
  if (n =? 34)%nat then Some dquote
  else if (n =? 92)%nat then Some backslash
  else if (n =? 47)%nat then Some (ascii_of_nat 47)
  else if (n =? 98)%nat then Some (ascii_of_nat 8)
  else if (n =? 102)%nat then Some (ascii_of_nat 12)
  else if (n =? 110)%nat then Some (ascii_of_nat 10)
  else if (n =? 114)%nat then Some (ascii_of_nat 13)
  else if (n =? 116)%nat then Some (ascii_of_nat 9)
  else None.

(** The rest of a string literal, after its opening quote: the decoded
    characters (reversed in [acc]) and the text after the closing quote. *)
Fixpoint read_string (s : string) (acc : list ascii)
  : option (string * string) :=
  match s with
  | EmptyString => None
  | String c s' =>
      if Ascii.eqb c dquote
      then Some (String.string_of_list_ascii (rev acc), s')
      else if Ascii.eqb c backslash
      then match s' with
           | String e s'' =>
               match unescape e with
               | Some ch => read_string s'' (ch :: acc)
               | None => None
               end
           | EmptyString => None
           end
      else if (nat_of_ascii c <? 32)%nat then None
      else read_string s' (c :: acc)
  end.

(** The elements of an array from the first one on, up to the closing
    bracket and the end of the text. *)
Fixpoint read_elements (fuel : nat) (s : string) (acc : list string)
  : option (list string) :=
  match fuel with
  | O => None
  | S fuel' =>
      match skip_space s with
      | String q rest =>
          if Ascii.eqb q dquote then
            match read_string rest [] with
            | Some (x, rest') =>
                match skip_space rest' with
                | String d rest'' =>
                    if Ascii.eqb d ","%char
                    then read_elements fuel' rest'' (x :: acc)
                    else if Ascii.eqb d "]"%char
                    then match skip_space rest'' with
                         | EmptyString => Some (rev (x :: acc))
                         | _ => None
                         end
                    else None
                | EmptyString => None
                end
            | None => None
            end
          else None
      | EmptyString => None
      end
  end.

Definition Unmarshal (text : string) : option (list string) :=
  match skip_space text with
  | String b rest =>
      if Ascii.eqb b "["%char then
        match skip_space rest with
        | String c rest' =>
            if Ascii.eqb c "]"%char
            then match skip_space rest' with
                 | EmptyString => Some []
                 | _ => None
                 end
            else read_elements (S (String.length rest)) rest []
        | EmptyString => None
        end
      else if String.eqb (skip_space text) "null" then Some []
      else None
  | EmptyString => None
  end.

Fixpoint escape (s : string) : string :=
  match s with
  | EmptyString => EmptyString
  | String c s' =>
      if Ascii.eqb c dquote || Ascii.eqb c backslash
      then String backslash (String c (escape s'))
      else String c (escape s')
  end.

Definition quote (s : string) : string :=
  String dquote (escape s ++ String dquote EmptyString).

(** The tests marshal the variadic argument of [AssureFailuresAt], which is
    the nil slice when no point is given: Go writes it [null]. *)
Definition Marshal (l : list string) : string :=
  match l with
  | [] => "null"
  | _ => "[" ++ String.concat "," (map quote l) ++ "]"
  end.

End json.

End failuregen.


(** ** Package testutil: the fault-injecting TCP relay (tcpproxy.go) *)

Module testutil.

Import failuregen.

(** A value of the interface type [failuregen.FailureGenerator]: the dynamic
    type of the receiver, its methods, whether that type also satisfies
    [failuregen.ConditionalFailureGenerator], and the receiver itself. *)
Record generator : Type := Generator {
  gen_type : Type;
  gen_FailureGenerator : FailureGenerator gen_type;
  gen_Conditional : option (ConditionalFailureGenerator gen_type);
  gen_value : gen_type
}.

(** A [net.Conn], by the order in which the sockets were opened. *)
Definition conn : Type := nat.

(** What the relay does to its sockets, goroutines and generators, in the
    order it does it (most recent first in a relay's [events]). *)
Inductive event : Type :=
| Close (c : conn)
| Go_handle (c : conn)
| Call_FailMaybe
| Call_FailOnCondition (buf : list Byte.byte)
| Write (dest : conn) (data : list Byte.byte)
| Close_selfTermCh (src : conn).

(** Modelled from the spec: the declaration of [ProxyStats] is not part of
    the sources; tcpproxy.go increments, decrements and loads three atomic
    signed counters of it, which section 3 names: active connections,
    frontend drops and backend drops. *)
Record ProxyStats : Type := {
  activeConnCtr : Z;
  FrontendDropCtr : Z;
  backendDropCtr : Z
}.

Record testTCPProxy : Type := {
  frontendPort : Z;
  backendPort : Z;
  (** [quit] is closed *)
  quit : bool;
  (** the listener has been closed *)
  listener_closed : bool;
  (** the counter of the wait group [wg] *)
  wg : Z;
  recvFg : generator;
  acceptFg : generator;
  stats : ProxyStats;
  (** the goroutine of [serve] has not returned *)
  serving : bool;
  (** the connections handed to a handler goroutine that has not finished *)
  handlers : list conn;
  events : list event;
  env : world
}.

Abbreviation T := (StateM testTCPProxy).

Definition with_stats (f : ProxyStats -> ProxyStats) (t : testTCPProxy)
  : testTCPProxy :=
  {| frontendPort := frontendPort t; backendPort := backendPort t;
     quit := quit t; listener_closed := listener_closed t; wg := wg t;
     recvFg := recvFg t; acceptFg := acceptFg t; stats := f (stats t);
     serving := serving t; handlers := handlers t; events := events t;
     env := env t |}.

Definition with_wg (f : Z -> Z) (t : testTCPProxy) : testTCPProxy :=
  {| frontendPort := frontendPort t; backendPort := backendPort t;
     quit := quit t; listener_closed := listener_closed t; wg := f (wg t);
     recvFg := recvFg t; acceptFg := acceptFg t; stats := stats t;
     serving := serving t; handlers := handlers t; events := events t;
     env := env t |}.

Definition with_handlers (f : list conn -> list conn) (t : testTCPProxy)
  : testTCPProxy :=
  {| frontendPort := frontendPort t; backendPort := backendPort t;
     quit := quit t; listener_closed := listener_closed t; wg := wg t;
     recvFg := recvFg t; acceptFg := acceptFg t; stats := stats t;
     serving := serving t; handlers := f (handlers t); events := events t;
     env := env t |}.

Definition with_event (e : event) (t : testTCPProxy) : testTCPProxy :=
  {| frontendPort := frontendPort t; backendPort := backendPort t;
     quit := quit t; listener_closed := listener_closed t; wg := wg t;
     recvFg := recvFg t; acceptFg := acceptFg t; stats := stats t;
     serving := serving t; handlers := handlers t; events := e :: events t;
     env := env t |}.

Definition with_recvFg (g : generator) (w : world) (t : testTCPProxy)
  : testTCPProxy :=
  {| frontendPort := frontendPort t; backendPort := backendPort t;
     quit := quit t; listener_closed := listener_closed t; wg := wg t;
     recvFg := g; acceptFg := acceptFg t; stats := stats t;
     serving := serving t; handlers := handlers t; events := events t;
     env := w |}.

Definition with_acceptFg (g : generator) (w : world) (t : testTCPProxy)
  : testTCPProxy :=
  {| frontendPort := frontendPort t; backendPort := backendPort t;
     quit := quit t; listener_closed := listener_closed t; wg := wg t;
     recvFg := recvFg t; acceptFg := g; stats := stats t;
     serving := serving t; handlers := handlers t; events := events t;
     env := w |}.

Definition with_serving (b : bool) (t : testTCPProxy) : testTCPProxy :=
  {| frontendPort := frontendPort t; backendPort := backendPort t;
     quit := quit t; listener_closed := listener_closed t; wg := wg t;
     recvFg := recvFg t; acceptFg := acceptFg t; stats := stats t;
     serving := b; handlers := handlers t; events := events t;
     env := env t |}.

Definition with_quit (t : testTCPProxy) : testTCPProxy :=
  {| frontendPort := frontendPort t; backendPort := backendPort t;
     quit := true; listener_closed := listener_closed t; wg := wg t;
     recvFg := recvFg t; acceptFg := acceptFg t; stats := stats t;
     serving := serving t; handlers := handlers t; events := events t;
     env := env t |}.

Definition with_listener_closed (t : testTCPProxy) : testTCPProxy :=
  {| frontendPort := frontendPort t; backendPort := backendPort t;
     quit := quit t; listener_closed := true; wg := wg t;
     recvFg := recvFg t; acceptFg := acceptFg t; stats := stats t;
     serving := serving t; handlers := handlers t; events := events t;
     env := env t |}.

(** The atomic counter operations the relay uses. *)
Definition activeConnCtr_Inc : T unit :=
  modify (with_stats (fun st =>
    {| activeConnCtr := activeConnCtr st + 1;
       FrontendDropCtr := FrontendDropCtr st;
       backendDropCtr := backendDropCtr st |})).

Definition activeConnCtr_Dec : T unit :=
  modify (with_stats (fun st =>
    {| activeConnCtr := activeConnCtr st - 1;
       FrontendDropCtr := FrontendDropCtr st;
       backendDropCtr := backendDropCtr st |})).

Definition FrontendDropCtr_Inc : T unit :=
  modify (with_stats (fun st =>
    {| activeConnCtr := activeConnCtr st;
       FrontendDropCtr := FrontendDropCtr st + 1;
       backendDropCtr := backendDropCtr st |})).

Definition backendDropCtr_Inc : T unit :=
  modify (with_stats (fun st =>
    {| activeConnCtr := activeConnCtr st;
       FrontendDropCtr := FrontendDropCtr st;
       backendDropCtr := backendDropCtr st + 1 |})).

Definition wg_Add (n : Z) : T unit := modify (with_wg (fun c => c + n)).
Definition wg_Done : T unit := modify (with_wg (fun c => c - 1)).

Definition emit (e : event) : T unit := modify (with_event e).

(** [t.acceptFg.FailMaybe()] *)
Definition acceptFg_FailMaybe : T (option error) :=
  fun t =>
    let 'Generator G ops cond v := acceptFg t in
    match @FailMaybe G ops v (env t) with
    | Returned ((err, v'), w) =>
        Returned (err, with_event Call_FailMaybe
                         (with_acceptFg (Generator G ops cond v') w t))
    | Panicked msg => Panicked msg
    end.

(** The relay [NewTCPProxy] returns when the port could be bound: the
    fields of the struct literal, the listener, [t.wg.Add(1)] and the
    goroutine of [serve] started. *)
Definition listening (frontendPort backendPort : Z)
    (recvFg acceptFg : generator) (w : world) : testTCPProxy :=
  {| frontendPort := frontendPort; backendPort := backendPort;
     quit := false; listener_closed := false; wg := 1;
     recvFg := recvFg; acceptFg := acceptFg;
     stats := {| activeConnCtr := 0; FrontendDropCtr := 0;
                 backendDropCtr := 0 |};
     serving := true; handlers := []; events := []; env := w |}.

(** [NewTCPProxy] creates a new instance of an L4 test proxy: [listen] is
    the answer of [net.Listen]. *)
Definition NewTCPProxy (frontendPort backendPort : Z)
    (recvFg acceptFg : generator) (listen : option error) (w : world)
  : testTCPProxy + error :=
  match listen with
  | Some err => inr (Wrap err "listen")
  | None => inl (listening frontendPort backendPort recvFg acceptFg w)
  end.

(** [Stop] stops the proxy from listening and also forcibly closes any
    connections: the part before [t.wg.Wait()], which then blocks until the
    wait group's counter is zero. *)
Definition Stop : T unit :=
  (let* t := get in
   if quit t then panic "close of closed channel"
   else do modify with_quit then modify with_listener_closed)%go.

(** [Stop] has returned. *)
Definition stopped (t : testTCPProxy) : bool := quit t && (wg t =? 0).

(** [Stats] provides the tcp proxy stats. *)
Definition Stats (t : testTCPProxy) : ProxyStats := stats t.

(** [BlockIncomingConns] blocks all incoming connection to the TCP proxy by
    dropping the connection. *)
Definition BlockIncomingConns : T unit :=
  fun t =>
    let 'Generator G ops cond v := acceptFg t in
    let '(_, v') := @SetFailureProbability G ops f32_one v in
    Returned (tt, with_acceptFg (Generator G ops cond v') (env t) t).

(** close connections gracefully *)
Definition closeFrontendConn (c : conn) (reason : string) : T unit :=
  (do emit (Close c) then
   do (if String.eqb reason "drop" then FrontendDropCtr_Inc else ret tt) then
   activeConnCtr_Dec)%go.

(** [go func() { ... t.handle(conn) ... t.wg.Done() }()] *)
Definition go_handle (c : conn) : T unit :=
  (do emit (Go_handle c) then modify (with_handlers (fun hs => c :: hs)))%go.

(** What [t.listener.Accept()] answers. *)
Inductive accept_result : Type :=
| Accepted (c : conn)
| Accept_error (err : error).

(** One iteration of the loop of [serve]; the answer is [true] when the
    iteration returns from [serve]. *)
Definition serve_iter (a : accept_result) : T bool :=
  match a with
  | Accept_error _ =>
      (let* t := get in
       if quit t then ret true else ret false)%go
  | Accepted c =>
      (let* err := acceptFg_FailMaybe in
       do (match err with
           | Some _ => closeFrontendConn c "drop"
           | None => ret tt
           end) then
       do wg_Add 1 then
       do activeConnCtr_Inc then
       do go_handle c then
       ret false)%go
  end.

(** [serve] over the answers of the successive [Accept] calls; it runs the
    deferred [t.wg.Done()] when it returns, and is blocked in [Accept] when
    the answers are used up. *)
Fixpoint serve (accepts : list accept_result) : T unit :=
  match accepts with
  | [] => ret tt
  | a :: accepts' =>
      (let* returned := serve_iter a in
       if returned
       then do wg_Done then modify (with_serving false)
       else serve accepts')%go
  end.

(** What one iteration of the loop of [copy] meets outside the relay: the
    peer's termination channel and [t.quit] found closed or not by the
    [select] (a concurrent [Stop] may close the latter at any time), the
    answers of [src.SetReadDeadline], of [src.Read] (the bytes it stored at
    the front of the buffer and its error) and of [dest.Write]. *)
Record iteration : Type := {
  peer_terminated : bool;
  quit_closed : bool;
  deadline_err : option error;
  read_data : list Byte.byte;
  read_err : option error;
  write_err : option error
}.

(** How an iteration of a loop ends. *)
Inductive flow : Type :=
| Next
| Return (err : option error).

(** [err] is a [*net.OpError] (by type assertion, so not through a wrapper)
    and its [Timeout()] holds. *)
Definition is_timeout (err : error) : bool :=
  match err with
  | net_OpError timeout => timeout
  | _ => false
  end.

(** [err != io.EOF] *)
Definition is_not_EOF (err : error) : bool :=
  match err with
  | io_EOF => false
  | _ => true
  end.

Definition buf_size : nat := 1024.

(** [src.Read(buf)]: the buffer afterwards and the number of bytes read. *)
Definition Read (data buf : list Byte.byte) : list Byte.byte * nat :=
  let data := take (length buf) data in
  (data ++ drop (length data) buf, length data).

(** The consultation of the receive-time generator in [copy], from the type
    assertion on [t.recvFg] on, for the buffer [buf]: the error [copy]
    returns with, if any. *)
Definition recv_check (buf : list Byte.byte) : T (option error) :=
  fun t =>
    let 'Generator G ops cond v := recvFg t in
    match cond with
    | Some condFailGen =>
        match @FailOnCondition G condFailGen buf v (env t) with
        | Returned ((Some err, v'), w) =>
            (do backendDropCtr_Inc then
             ret (Some (Wrap err "injected recv failure on satisfying condition")))%go
              (with_event (Call_FailOnCondition buf)
                 (with_recvFg (Generator G ops cond v') w t))
        | Returned ((None, v'), w) =>
            Returned (None, with_event (Call_FailOnCondition buf)
                              (with_recvFg (Generator G ops cond v') w t))
        | Panicked msg => Panicked msg
        end
    | None =>
        match @FailMaybe G ops v (env t) with
        | Returned ((Some err, v'), w) =>
            (do backendDropCtr_Inc then
             ret (Some (Wrap err "injected recv failure")))%go
              (with_event Call_FailMaybe
                 (with_recvFg (Generator G ops cond v') w t))
        | Returned ((None, v'), w) =>
            Returned (None, with_event Call_FailMaybe
                              (with_recvFg (Generator G ops cond v') w t))
        | Panicked msg => Panicked msg
        end
    end.

(** One iteration of the loop of [copy], with the buffer as the previous
    iterations left it: the buffer afterwards and how the iteration ends. *)
Definition copy_iter (dest src : conn) (it : iteration) (buf : list Byte.byte)
  : T (list Byte.byte * flow) :=
  (let* t := get in
   if peer_terminated it || (quit t || quit_closed it) then ret (buf, Return None)
   else
     match deadline_err it with
     | Some err => ret (buf, Return (Some (Wrap err "set source deadline")))
     | None =>
         let '(buf, nr) := Read (read_data it) buf in
         let after_read : T (list Byte.byte * flow) :=
           if (nr =? 0)%nat then ret (buf, Return None)
           else
             let* failed := recv_check buf in
             match failed with
             | Some err => ret (buf, Return (Some err))
             | None =>
                 do emit (Write dest (take nr buf)) then
                 match write_err it with
                 | Some err => ret (buf, Return (Some (Wrap err "write")))
                 | None => ret (buf, Next)
                 end
             end in
         match read_err it with
         | Some err =>
             if is_timeout err then ret (buf, Next)
             else if is_not_EOF err then ret (buf, Return (Some (Wrap err "read")))
             else after_read
         | None => after_read
         end
     end)%go.

(** The loop of [copy] over the successive iterations' surroundings:
    [Some err] when it returns [err], [None] when the script is used up and
    the loop is still running. *)
Fixpoint copy_loop (dest src : conn) (script : list iteration)
    (buf : list Byte.byte) : T (option (option error)) :=
  match script with
  | [] => ret None
  | it :: script' =>
      (let* (buf', fl) := copy_iter dest src it buf in
       match fl with
       | Next => copy_loop dest src script' buf'
       | Return err => do emit (Close_selfTermCh src) then ret (Some err)
       end)%go
  end.

(** [copy]: the buffer is [make([]byte, 1024)]. *)
Definition copy (dest src : conn) (script : list iteration)
  : T (option (option error)) :=
  copy_loop dest src script (replicate buf_size Byte.x00).

(** What a connection handler meets: the answer of [net.Dial], and the
    surroundings of the two copy loops, frontend to backend ([onward]) and
    backend to frontend ([backward]). *)
Record handle_script : Type := {
  dial : conn + error;
  onward : list iteration;
  backward : list iteration
}.

(** [handle]: [Some err] when it returns [err], after its deferred calls;
    [None] while one of its loops is still running.  The two loops run
    concurrently in the program; each sees the other only through the
    termination channels, which its script answers for, and the counters
    they touch are atomic, so they are run one after the other here. *)
Definition handle (frontendConn : conn) (hs : handle_script)
  : T (option (option error)) :=
  match dial hs with
  | inr err =>
      (do closeFrontendConn frontendConn "" then
       ret (Some (Some (Wrap err "dial"))))%go
  | inl backendConn =>
      (let* r1 := copy backendConn frontendConn (onward hs) in
       let* r2 := copy frontendConn backendConn (backward hs) in
       match r1, r2 with
       | Some _, Some err =>
           do emit (Close backendConn) then
           do closeFrontendConn frontendConn "" then
           ret (Some err)
       | _, _ => ret None
       end)%go
  end.

(** Remove one occurrence of a connection. *)
Fixpoint remove_one (c : conn) (l : list conn) : list conn :=
  match l with
  | [] => []
  | x :: l' => if (x =? c)%nat then l' else x :: remove_one c l'
  end.

(** The goroutine [serve] starts for an accepted connection, run to its
    end: it takes effect when the connection has a pending handler and the
    script lets [handle] return. *)
Definition run_handler (c : conn) (hs : handle_script) : T unit :=
  fun t =>
    if bool_decide (c ∈ handlers t) then
      match handle c hs t with
      | Returned (Some _, t') =>
          (do wg_Done then modify (with_handlers (remove_one c)))%go t'
      | Returned (None, _) => Returned (tt, t)
      | Panicked msg => Panicked msg
      end
    else Returned (tt, t).

(** The operations on a running relay: an answer of [Accept] reaching the
    loop of [serve], the handler of a connection running to its end, and the
    calls of the test driver. *)
Inductive operation : Type :=
| Op_accept (a : accept_result)
| Op_handler (c : conn) (hs : handle_script)
| Op_Stop
| Op_BlockIncomingConns.

Definition apply_op (op : operation) : T unit :=
  match op with
  | Op_accept a =>
      (let* t := get in
       if serving t then serve [a] else ret tt)%go
  | Op_handler c hs => run_handler c hs
  | Op_Stop => Stop
  | Op_BlockIncomingConns => BlockIncomingConns
  end.

Fixpoint run_ops (ops : list operation) : T unit :=
  match ops with
  | [] => ret tt
  | op :: ops' => (do apply_op op then run_ops ops')%go
  end.

(** What a test sees of a relay: [Stats()], and from the outside of the
    process the handlers still pending, the events so far and the counter
    of the wait group. *)
Record observation : Type := {
  seen_stats : ProxyStats;
  seen_handlers : list conn;
  seen_events : list event;
  seen_wg : Z
}.

(** The answer of a run and what is seen of the relay after it; nothing
    when the run panicked. *)
Definition observe {A} (r : result (A * testTCPProxy))
  : option (A * observation) :=
  match r with
  | Returned (a, t) =>
      Some (a, {| seen_stats := Stats t; seen_handlers := handlers t;
                  seen_events := events t; seen_wg := wg t |})
  | Panicked _ => None
  end.

End testutil.

(** ** Scenarios

    The concrete generators, relays, scripts and plans the properties below
    are run on. *)

Module scenario.

Import failuregen testutil.

(** A [FailureGeneratorImpl] as a [FailureGenerator] value: it does not
    satisfy [ConditionalFailureGenerator]. *)
Definition plain (fg : FailureGeneratorImpl.t) : generator :=
  Generator FailureGeneratorImpl.t FailureGeneratorImpl_generator None fg.

(** A pattern generator as a [FailureGenerator] value: it satisfies
    [ConditionalFailureGenerator] too. *)
Definition conditional (g : PatternFailureGenerator.t) : generator :=
  Generator PatternFailureGenerator.t PatternFailureGenerator_generator
    (Some PatternFailureGenerator_conditional) g.

Definition bytes (s : string) : list Byte.byte := String.list_byte_of_string s.

(** A relay from port 8080 to port 9090 with two new generators. *)
Definition relay0 : testTCPProxy :=
  listening 8080 9090 (plain NewFailureGenerator) (plain NewFailureGenerator)
    zero_world.

(** A relay whose receive-time generator fails on the bytes [DROP]. *)
Definition drop_pattern : PatternFailureGenerator.t :=
  {| PatternFailureGenerator.base := NewFailureGenerator;
     PatternFailureGenerator.pattern := bytes "DROP" |}.

Definition pattern_relay : testTCPProxy :=
  listening 8080 9090 (conditional drop_pattern) (plain NewFailureGenerator)
    zero_world.

(** An iteration of [copy] in which [Read] stores [data] and every call
    succeeds. *)
Definition reads (data : list Byte.byte) : iteration :=
  {| peer_terminated := false; quit_closed := false; deadline_err := None;
     read_data := data; read_err := None; write_err := None |}.

(** An iteration in which [Read] stores nothing and answers [err]. *)
Definition read_fails (err : error) : iteration :=
  {| peer_terminated := false; quit_closed := false; deadline_err := None;
     read_data := []; read_err := Some err; write_err := None |}.

(** An iteration that finds the peer's termination channel closed. *)
Definition peer_done : iteration :=
  {| peer_terminated := true; quit_closed := false; deadline_err := None;
     read_data := []; read_err := None; write_err := None |}.

(** Two reads from one source: four bytes that do not hold the pattern,
    then the single byte [D]. *)
Definition stale_script : list iteration :=
  [reads (bytes "xROP"); reads (bytes "D")].

(** What the handler of a frontend connection closed at accept time meets:
    the backend answers (connection 2), the read from the closed frontend
    socket fails, the other direction finds its peer terminated. *)
Definition closed_frontend_script : handle_script :=
  {| dial := inl 2%nat;
     onward := [read_fails (net_OpError false)];
     backward := [peer_done] |}.

(** The generator [BlockIncomingConns] leaves in place of a new one, and
    the relay [BlockIncomingConns] makes of [relay0]. *)
Definition blocking : FailureGeneratorImpl.t :=
  {| FailureGeneratorImpl.failurePpm := OneMillion;
     FailureGeneratorImpl.delayPpm := 0;
     FailureGeneratorImpl.maxDelayMicros := 0;
     FailureGeneratorImpl.DelayFn := time_Sleep |}.

Definition blocked_relay : testTCPProxy :=
  with_acceptFg (plain blocking) zero_world relay0.

(** The accept loop on an accepted connection [c], up to the end of the
    branch taken when the accept-time generator injects a failure. *)
Definition serve_until_drop (c : conn) : T unit :=
  (let* err := acceptFg_FailMaybe in
   match err with
   | Some _ => closeFrontendConn c "drop"
   | None => ret tt
   end)%go.

Definition f32_minus_half : float32 := S754_finite true 8388608 (-24).
Definition f32_0_2 : float32 := S754_finite false 13421773 (-26).

(** The plan of the first test of assured_failure_test.go.  The values of
    the identifiers are declared outside the sources; their names stand for
    them. *)
Definition test_plan : list FailurePoint :=
  ["AfterAdditiveSchemaChange"; "BeforeMetadataMigration";
   "SChTargetStateMT3"]%string.

Definition test_path : string := "/tmp/callisto.assured_failure.json.1".

Definition test_afp : AssuredFailurePlanImpl.t :=
  NewAssuredFailurePlan test_path.

(** [AssureFailuresAt(t, fp...)]: the temporary file holds the marshalled
    points. *)
Definition AssureFailuresAt (fp : list FailurePoint) : filesystem :=
  {[ test_path := json.Marshal fp ]}.

End scenario.

(** ** Measures

    Notions the further properties of the generator and of the relay are
    stated with. *)

Module measure.

Import failuregen testutil.

(** The fields of a generator are in the ranges its setters accept. *)
Definition well_configured (fg : FailureGeneratorImpl.t) : Prop :=
  0 <= FailureGeneratorImpl.failurePpm fg <= OneMillion
  /\ 0 <= FailureGeneratorImpl.delayPpm fg <= OneMillion
  /\ 0 <= FailureGeneratorImpl.maxDelayMicros fg.

(** A source all of whose draws are [r]. *)
Definition drawing (r : Z) : world := World (fun _ => r) 0 [].

(** [FailMaybe] returns an error when the draws are all [r]. *)
Definition fails_at (fg : FailureGeneratorImpl.t) (r : Z) : bool :=
  match FailureGeneratorImpl.FailMaybe fg (drawing r) with
  | Returned (Some _, _) => true
  | _ => false
  end.

(** The draws of [[0, OneMillion)] on which [FailMaybe] returns an
    error. *)
Definition failing_draws (fg : FailureGeneratorImpl.t) : list Z :=
  List.filter (fails_at fg) (seqZ 0 OneMillion).

(** [n] calls of [FailMaybe] one after the other, as the loops of
    failure_generator_test.go make them: the errors returned, in order. *)
Fixpoint FailMaybe_times (n : nat) (fg : FailureGeneratorImpl.t)
  : M (list (option error)) :=
  match n with
  | O => ret []
  | S n' =>
      (let* e := FailureGeneratorImpl.FailMaybe fg in
       let* es := FailMaybe_times n' fg in
       ret (e :: es))%go
  end.

(** The time slept in all, in nanoseconds. *)
Definition total_slept (w : world) : Z := foldr Z.add 0 (slept w).

(** The bytes written to [dest], in the order of the writes, from the
    events of a relay (most recent first). *)
Fixpoint written (dest : conn) (evs : list event) : list Byte.byte :=
  match evs with
  | [] => []
  | Write d data :: evs' =>
      if (d =? dest)%nat then written dest evs' ++ data else written dest evs'
  | _ :: evs' => written dest evs'
  end.

(** How often a connection has been closed. *)
Fixpoint closes (c : conn) (evs : list event) : nat :=
  match evs with
  | [] => 0%nat
  | Close d :: evs' => if (d =? c)%nat then S (closes c evs') else closes c evs'
  | _ :: evs' => closes c evs'
  end.

(** The goroutines the wait group of a relay counts: the accept loop while
    it runs, and the pending handlers. *)
Definition goroutines (t : testTCPProxy) : Z :=
  (if serving t then 1 else 0) + Z.of_nat (length (handlers t)).

(** What the counters of a relay keep in any run: the active connections
    and the frontend drops together are the pending handlers, and the wait
    group counts the goroutines. *)
Definition accounted (t : testTCPProxy) : Prop :=
  activeConnCtr (stats t) + FrontendDropCtr (stats t)
    = Z.of_nat (length (handlers t))
  /\ wg t = goroutines t.

(** A step of the relay that touches neither the counters of the accept
    loop and of the handlers, nor the goroutines, nor the signals, and
    closes no socket. *)
Definition undisturbed (t t' : testTCPProxy) : Prop :=
  activeConnCtr (stats t') = activeConnCtr (stats t)
  /\ FrontendDropCtr (stats t') = FrontendDropCtr (stats t)
  /\ handlers t' = handlers t
  /\ wg t' = wg t
  /\ serving t' = serving t
  /\ quit t' = quit t
  /\ forall c, closes c (events t') = closes c (events t).

(** An iteration of [copy] in which the source delivers [data], alone or
    together with the end of the stream, no signal is set and the
    destination takes what it is given. *)
Definition delivers (it : iteration) (data : list Byte.byte) : Prop :=
  peer_terminated it = false /\ quit_closed it = false
  /\ deadline_err it = None /\ write_err it = None
  /\ read_data it = data /\ data <> []
  /\ (length data <= buf_size)%nat
  /\ (read_err it = None \/ read_err it = Some io_EOF).

(** The relay a run leaves; the relay [t] when the run panicked. *)
Definition final {A} (t : testTCPProxy) (r : result (A * testTCPProxy))
  : testTCPProxy :=
  match r with
  | Returned (_, t') => t'
  | Panicked _ => t
  end.

(** The relay told to block incoming connections, after it has accepted
    one connection: dropped, and handed to a handler that is pending. *)
Definition after_one_drop : testTCPProxy :=
  final scenario.blocked_relay
    (run_ops [Op_accept (Accepted 1%nat)] scenario.blocked_relay).

End measure.

(** * Properties *)

(** ** Rounding of binary32 products *)

Module float32_facts.

Import failuregen.

Lemma shr_1_m mrs : 0 <= shr_m mrs -> shr_m (shr_1 mrs) = shr_m mrs / 2.
Proof.
  destruct mrs as [m r s]. cbn [shr_m]. intros Hm.
  destruct m as [| p | p]; [reflexivity | | lia].
  destruct p as [p | p |]; cbn [shr_1 shr_m].
  - rewrite Pos2Z.inj_xI. apply Z.div_unique with (r := 1); lia.
  - rewrite Pos2Z.inj_xO. apply Z.div_unique with (r := 0); lia.
  - reflexivity.
Qed.

Lemma iter_pos_shr_m n : forall mrs,
  0 <= shr_m mrs ->
  shr_m (SpecFloat.iter_pos shr_1 n mrs) = shr_m mrs / 2 ^ Zpos n.
Proof.
  induction n as [n IH | n IH |]; intros mrs Hm; cbn [SpecFloat.iter_pos].
  - assert (Hpow : 0 < 2 ^ Zpos n) by (apply Z.pow_pos_nonneg; lia).
    assert (H1 : 0 <= shr_m (shr_1 mrs)).
    { rewrite shr_1_m by assumption. apply Z.div_pos; lia. }
    assert (H2 : 0 <= shr_m (SpecFloat.iter_pos shr_1 n (shr_1 mrs))).
    { rewrite IH by assumption. apply Z.div_pos; lia. }
    assert (Hp : 2 ^ Zpos n~1 = 2 * (2 ^ Zpos n * 2 ^ Zpos n)).
    { rewrite <- Z.pow_add_r, <- (Z.pow_succ_r 2) by lia. f_equal. lia. }
    rewrite IH, IH, shr_1_m, Hp by assumption.
    rewrite !Z.div_div by lia. reflexivity.
  - assert (Hpow : 0 < 2 ^ Zpos n) by (apply Z.pow_pos_nonneg; lia).
    assert (H2 : 0 <= shr_m (SpecFloat.iter_pos shr_1 n mrs)).
    { rewrite IH by assumption. apply Z.div_pos; lia. }
    assert (Hp : 2 ^ Zpos n~0 = 2 ^ Zpos n * 2 ^ Zpos n).
    { rewrite <- Z.pow_add_r by lia. f_equal. lia. }
    rewrite IH, IH, Hp by assumption.
    rewrite !Z.div_div by lia. reflexivity.
  - now rewrite shr_1_m.
Qed.

Lemma shr_cases mrs e n :
  0 <= shr_m mrs ->
  (n <= 0 /\ shr mrs e n = (mrs, e)) \/
  (0 < n /\ exists mrs', shr mrs e n = (mrs', e + n) /\
                         shr_m mrs' = shr_m mrs / 2 ^ n).
Proof.
  intros Hm. destruct n as [| n | n]; cbn [shr].
  - left. split; [lia | reflexivity].
  - right. split; [lia |]. eexists. split; [reflexivity |].
    now apply iter_pos_shr_m.
  - left. split; [lia | reflexivity].
Qed.

Lemma round_nearest_even_bounds mx lx :
  mx <= round_nearest_even mx lx <= mx + 1.
Proof.
  unfold round_nearest_even.
  destruct lx as [| []]; try lia. destruct (Z.even mx); lia.
Qed.

Lemma digits2_pos_size p : digits2_pos p = Pos.size p.
Proof. induction p; cbn; congruence. Qed.

Lemma digits2_le p k :
  0 <= k -> Zpos p < 2 ^ k -> Zpos (digits2_pos p) <= k.
Proof.
  intros Hk Hp. rewrite digits2_pos_size.
  destruct (Z.le_gt_cases (Zpos (Pos.size p)) k) as [H | H]; [assumption |].
  exfalso.
  pose proof (Pos.size_le p) as Hs.
  apply Pos2Z.pos_le_pos in Hs. rewrite Pos2Z.inj_pow in Hs.
  change (Zpos 2) with 2 in Hs. change (Zpos p~0) with (2 * Zpos p) in Hs.
  assert (H1 : 2 ^ Z.succ k <= 2 ^ Zpos (Pos.size p))
    by (apply Z.pow_le_mono_r; lia).
  rewrite Z.pow_succ_r in H1 by lia. lia.
Qed.

Lemma digits2_gt p : Zpos p < 2 ^ Zpos (digits2_pos p).
Proof.
  rewrite digits2_pos_size. pose proof (Pos.size_gt p) as Hs.
  apply Pos2Z.pos_lt_pos in Hs. now rewrite Pos2Z.inj_pow in Hs.
Qed.

Lemma pow2_lt_exponent a b : 0 <= b -> 2 ^ a < 2 ^ b -> a < b.
Proof.
  intros Hb H. destruct (Z.lt_ge_cases a b) as [Hlt | Hge]; [assumption |].
  assert (2 ^ b <= 2 ^ a) by (apply Z.pow_le_mono_r; lia). lia.
Qed.

(** The first shift and the rounding leave a mantissa below one unit. *)
Lemma first_stage_below_one (N : positive) (E nmax kd : Z) :
  -153 <= E -> 4 <= nmax -> 0 <= kd -> kd - 24 <= nmax ->
  Zpos N < 2 ^ kd -> Zpos N + 2 ^ nmax < 2 ^ (- E) ->
  forall mrs' e', shr_fexp 24 128 (Zpos N) E loc_Exact = (mrs', e') ->
  let m1 := round_nearest_even (shr_m mrs') (loc_of_shr_record mrs') in
  0 <= m1 /\ e' < 0 /\ m1 < 2 ^ (- e').
Proof.
  intros HE Hnmax Hkd Hk HN Hsum mrs' e' Hshr m1.
  assert (Hpmax : 0 < 2 ^ nmax) by (apply Z.pow_pos_nonneg; lia).
  assert (HEneg : E < 0).
  { destruct (Z.lt_ge_cases E 0) as [? | Hge]; [assumption |].
    destruct (Z.eq_dec E 0) as [HE0 | ?].
    - rewrite HE0 in Hsum. change (2 ^ (- 0)) with 1 in Hsum. lia.
    - rewrite (Z.pow_neg_r 2 (- E)) in Hsum by lia. lia. }
  unfold shr_fexp in Hshr. cbn [Zdigits2 shr_record_of_loc] in Hshr.
  pose proof (digits2_le N kd Hkd HN) as Hd.
  assert (Hdpos : 0 < Zpos (digits2_pos N)) by lia.
  set (n1 := fexp 24 128 (Zpos (digits2_pos N) + E) - E) in Hshr.
  assert (Hn1 : n1 <= nmax).
  { subst n1. unfold fexp, emin. lia. }
  destruct (shr_cases (Build_shr_record (Zpos N) false false) E n1)
    as [[Hle Heq] | [Hgt (mrs1 & Heq & Hm)]]; [cbn; lia | |];
    rewrite Heq in Hshr; injection Hshr as <- <-.
  - subst m1. cbn. repeat split; lia.
  - cbn [shr_m] in Hm.
    assert (Hp1 : 0 < 2 ^ n1) by (apply Z.pow_pos_nonneg; lia).
    assert (Hmono : 2 ^ n1 <= 2 ^ nmax) by (apply Z.pow_le_mono_r; lia).
    assert (Hn1E : n1 < - E) by (apply pow2_lt_exponent; lia).
    assert (Hsplit : 2 ^ (- E) = 2 ^ n1 * 2 ^ (- (E + n1))).
    { rewrite <- Z.pow_add_r by lia. f_equal. lia. }
    assert (Hq : shr_m mrs1 < 2 ^ (- (E + n1)) - 1).
    { rewrite Hm. apply Z.div_lt_upper_bound; [lia |]. nia. }
    assert (Hq0 : 0 <= shr_m mrs1).
    { rewrite Hm. apply Z.div_pos; lia. }
    pose proof (round_nearest_even_bounds (shr_m mrs1) (loc_of_shr_record mrs1)).
    subst m1. repeat split; lia.
Qed.

(** A mantissa below one unit is converted to zero, whatever the second
    shift does with it. *)
Lemma second_stage_zero (m1 e' : Z) :
  0 <= m1 -> e' < 0 -> m1 < 2 ^ (- e') ->
  forall mrs'' e'', shr_fexp 24 128 m1 e' loc_Exact = (mrs'', e'') ->
  int32_of_f32
    match shr_m mrs'' with
    | Z0 => S754_zero false
    | Zpos m => if e'' <=? 128 - 24 then S754_finite false m e''
                else S754_infinity false
    | Zneg _ => S754_nan
    end = 0.
Proof.
  intros Hm0 He Hm mrs'' e'' Hshr.
  unfold shr_fexp in Hshr. cbn [shr_record_of_loc] in Hshr.
  set (n2 := fexp 24 128 (Zdigits2 m1 + e') - e') in Hshr.
  assert (Hfin : forall q e, e < 0 -> Zpos q < 2 ^ (- e) ->
            int32_of_f32 (if e <=? 128 - 24 then S754_finite false q e
                          else S754_infinity false) = 0).
  { intros q e Hneg Hq.
    destruct (Z.leb_spec e (128 - 24)); [| lia].
    cbn [int32_of_f32].
    rewrite Z.shiftl_div_pow2 by lia.
    rewrite Z.div_small by lia. reflexivity. }
  destruct (shr_cases (Build_shr_record m1 false false) e' n2)
    as [[Hle Heq] | [Hgt (mrs2 & Heq & Hm2)]]; [cbn; lia | |];
    rewrite Heq in Hshr; injection Hshr as <- <-.
  - cbn [shr_m]. destruct m1 as [| q | q]; [reflexivity | | lia].
    now apply Hfin.
  - cbn [shr_m] in Hm2.
    assert (Hp2 : 0 < 2 ^ n2) by (apply Z.pow_pos_nonneg; lia).
    destruct (shr_m mrs2) as [| q | q] eqn:Hq; [reflexivity | |].
    + assert (Hge : 2 ^ n2 <= m1).
      { destruct (Z.lt_ge_cases m1 (2 ^ n2)) as [Hlt | ?]; [| assumption].
        rewrite Z.div_small in Hm2 by lia. lia. }
      assert (Hn2 : n2 < - e') by (apply pow2_lt_exponent; lia).
      apply Hfin; [lia |].
      assert (Hsplit : 2 ^ (- e') = 2 ^ n2 * 2 ^ (- (e' + n2))).
      { rewrite <- Z.pow_add_r by lia. f_equal. lia. }
      rewrite Hm2. apply Z.div_lt_upper_bound; lia.
    + assert (0 <= m1 / 2 ^ n2) by (apply Z.div_pos; lia). lia.
Qed.

Lemma round_below_one_is_zero (N : positive) (E nmax kd : Z) :
  -153 <= E -> 4 <= nmax -> 0 <= kd -> kd - 24 <= nmax ->
  Zpos N < 2 ^ kd -> Zpos N + 2 ^ nmax < 2 ^ (- E) ->
  int32_of_f32 (binary_round_aux 24 128 false (Zpos N) E loc_Exact) = 0.
Proof.
  intros HE Hnmax Hkd Hk HN Hsum. unfold binary_round_aux.
  destruct (shr_fexp 24 128 (Zpos N) E loc_Exact) as [mrs' e'] eqn:H1.
  destruct (first_stage_below_one N E nmax kd HE Hnmax Hkd Hk HN Hsum _ _ H1)
    as (Hm0 & He & Hm).
  destruct (shr_fexp 24 128 _ e' loc_Exact) as [mrs'' e''] eqn:H2.
  exact (second_stage_zero _ _ Hm0 He Hm _ _ H2).
Qed.

Lemma valid_mantissa m e s :
  valid_binary 24 128 (S754_finite s m e) = true ->
  -149 <= e /\ Zpos m < 2 ^ 24.
Proof.
  cbn [valid_binary]. unfold bounded, canonical_mantissa, fexp, emin.
  intros H. apply andb_true_iff in H as [Hc _]. apply Z.eqb_eq in Hc.
  pose proof (digits2_gt m) as Hd.
  assert (Hle : Zpos (digits2_pos m) <= 24) by lia.
  assert (2 ^ Zpos (digits2_pos m) <= 2 ^ 24) by (apply Z.pow_le_mono_r; lia).
  lia.
Qed.

Lemma sub_ppm_product_is_zero p :
  valid_binary 24 128 p = true ->
  SFltb (S754_zero false) p = true ->
  SFltb p f32_millionth = true ->
  int32_of_f32 (SFmul 24 128 p (S754_finite false 16000000 (-4))) = 0.
Proof.
  intros Hvalid Hpos Hlt.
  destruct p as [s | s | | s m e]; try discriminate Hpos.
  - destruct s; discriminate.
  - destruct s; [discriminate Hpos |].
    destruct (valid_mantissa _ _ _ Hvalid) as [He Hm].
    unfold SFltb, SFcompare, f32_millionth in Hlt.
    cbn [SFmul xorb].
    change (2 ^ 24) with 16777216 in Hm.
    destruct (e ?= -43) eqn:Hcmp; [| | discriminate Hlt].
    + apply Z.compare_eq_iff in Hcmp.
      assert (Hmant : (m < 8796093)%positive).
      { change (PosDef.Pos.compare_cont Eq m 8796093 = Lt).
        destruct (PosDef.Pos.compare_cont Eq m 8796093); congruence. }
      subst e. apply Pos2Z.pos_lt_pos in Hmant.
      clear Hvalid Hpos Hlt He.
      apply (round_below_one_is_zero (m * 16000000) (-43 + -4) 23 47); lia.
    + change (e < -43) in Hcmp.
      assert (Hmono : 2 ^ 48 <= 2 ^ (- (e + -4)))
        by (apply Z.pow_le_mono_r; lia).
      apply (round_below_one_is_zero _ _ 24 48); lia.
Qed.

Lemma f32_of_int_OneMillion :
  f32_of_int OneMillion = S754_finite false 16000000 (-4).
Proof. reflexivity. Qed.

End float32_facts.

(** ** The probabilistic generator *)

Module failuregen_facts.

Import failuregen.
Import FailureGeneratorImpl.


Lemma ppm_inside p :
  f32_lt p f32_zero = false -> f32_lt f32_one p = false ->
  ppm p = (int32_of_f32 (f32_mul p (f32_of_int OneMillion)), None).
Proof. intros H0 H1. unfold ppm. now rewrite H0, H1. Qed.

(** A NaN compares neither below 0.0 nor above 1.0: [ppm] accepts it, and
    the conversion of the NaN product is the implementation's choice. *)
Lemma ppm_nan : ppm S754_nan = (int32_indefinite, None).
Proof. reflexivity. Qed.

Lemma ppm_one : ppm f32_one = (OneMillion, None).
Proof. reflexivity. Qed.

Lemma ppm_zero : ppm f32_zero = (0, None).
Proof. reflexivity. Qed.

Lemma Int31n_positive n w :
  0 < n ->
  Int31n n w =
    Returned (rand_src w (rand_pos w) mod n,
              World (rand_src w) (S (rand_pos w)) (slept w))
  /\ 0 <= rand_src w (rand_pos w) mod n < n.
Proof.
  intros Hn. unfold Int31n.
  destruct (Z.leb_spec n 0) as [Hle | _]; [lia |].
  split; [reflexivity | now apply Z.mod_pos_bound].
Qed.

Lemma Int31n_nonpositive n w :
  n <= 0 -> Int31n n w = Panicked "invalid argument to Int31n".
Proof.
  intros Hn. unfold Int31n.
  destruct (Z.leb_spec n 0) as [_ | Hgt]; [reflexivity | lia].
Qed.

Lemma draw_OneMillion (src : nat -> Z) (k : nat) :
  0 <= src k mod OneMillion < OneMillion.
Proof. apply Z.mod_pos_bound. reflexivity. Qed.

(** [FailMaybe] when the delay trial does not fire: two draws, no sleep. *)
Lemma FailMaybe_no_delay fg w :
  delayPpm fg <= rand_src w (rand_pos w) mod OneMillion ->
  FailMaybe fg w =
    Returned
      (if rand_src w (S (rand_pos w)) mod OneMillion <? failurePpm fg
       then Some errInjectedFailure else None,
       World (rand_src w) (S (S (rand_pos w))) (slept w)).
Proof.
  intros Hd. unfold FailMaybe, bind.
  destruct (Int31n_positive OneMillion w eq_refl) as [-> _].
  destruct (Z.ltb_spec (rand_src w (rand_pos w) mod OneMillion) (delayPpm fg));
    [lia |].
  cbn [ret].
  destruct (Int31n_positive OneMillion
              (World (rand_src w) (S (rand_pos w)) (slept w)) eq_refl) as [-> _].
  cbn. now destruct (_ <? _).
Qed.

(** [FailMaybe] when the delay trial fires: [Int31n] is asked for a delay
    below the bound, and panics when the bound is not positive. *)
Lemma FailMaybe_delay fg w :
  rand_src w (rand_pos w) mod OneMillion < delayPpm fg ->
  FailMaybe fg w =
    if maxDelayMicros fg <=? 0 then Panicked "invalid argument to Int31n"
    else
      let r := rand_src w (S (rand_pos w)) mod maxDelayMicros fg in
      let w2 := DelayFn fg (r * Microsecond)
                  (World (rand_src w) (S (S (rand_pos w))) (slept w)) in
      Returned
        (if rand_src w2 (rand_pos w2) mod OneMillion <? failurePpm fg
         then Some errInjectedFailure else None,
         World (rand_src w2) (S (rand_pos w2)) (slept w2)).
Proof.
  intros Hd. unfold FailMaybe, bind.
  destruct (Int31n_positive OneMillion w eq_refl) as [-> _].
  destruct (Z.ltb_spec (rand_src w (rand_pos w) mod OneMillion) (delayPpm fg));
    [| lia].
  destruct (Z.leb_spec (maxDelayMicros fg) 0) as [Hm | Hm].
  - now rewrite Int31n_nonpositive.
  - destruct (Int31n_positive (maxDelayMicros fg)
                (World (rand_src w) (S (rand_pos w)) (slept w)) Hm) as [-> _].
    cbn [modify rand_src rand_pos slept].
    match goal with
    | |- context [Int31n OneMillion ?w2] =>
        destruct (Int31n_positive OneMillion w2 eq_refl) as [-> _]
    end.
    cbn. now destruct (_ <? _).
Qed.

(** With a failure-ppm of zero or less no call returns an error. *)
Lemma FailMaybe_never_fails fg w :
  failurePpm fg <= 0 ->
  match FailMaybe fg w with
  | Returned (Some _, _) => False
  | _ => True
  end.
Proof.
  intros Hf.
  destruct (Z.lt_ge_cases (rand_src w (rand_pos w) mod OneMillion) (delayPpm fg))
    as [Hd | Hd].
  - rewrite (FailMaybe_delay _ _ Hd).
    destruct (maxDelayMicros fg <=? 0); [exact I |]. cbv zeta.
    match goal with
    | |- context [?src ?k mod OneMillion <? _] =>
        pose proof (draw_OneMillion src k) as Hr;
        destruct (Z.ltb_spec (src k mod OneMillion) (failurePpm fg))
    end; [lia | exact I].
  - rewrite (FailMaybe_no_delay _ _ Hd).
    match goal with
    | |- context [?src ?k mod OneMillion <? _] =>
        pose proof (draw_OneMillion src k) as Hr;
        destruct (Z.ltb_spec (src k mod OneMillion) (failurePpm fg))
    end; [lia | exact I].
Qed.

(** With a failure-ppm of one million no call returns success. *)
Lemma FailMaybe_never_succeeds fg w :
  OneMillion <= failurePpm fg ->
  match FailMaybe fg w with
  | Returned (None, _) => False
  | _ => True
  end.
Proof.
  intros Hf.
  destruct (Z.lt_ge_cases (rand_src w (rand_pos w) mod OneMillion) (delayPpm fg))
    as [Hd | Hd].
  - rewrite (FailMaybe_delay _ _ Hd).
    destruct (maxDelayMicros fg <=? 0); [exact I |]. cbv zeta.
    match goal with
    | |- context [?src ?k mod OneMillion <? _] =>
        pose proof (draw_OneMillion src k) as Hr;
        destruct (Z.ltb_spec (src k mod OneMillion) (failurePpm fg))
    end; [exact I | lia].
  - rewrite (FailMaybe_no_delay _ _ Hd).
    match goal with
    | |- context [?src ?k mod OneMillion <? _] =>
        pose proof (draw_OneMillion src k) as Hr;
        destruct (Z.ltb_spec (src k mod OneMillion) (failurePpm fg))
    end; [exact I | lia].
Qed.

(** With a failure-ppm of one million and no delay configured every call
    returns the injected failure. *)
Lemma FailMaybe_always_fails fg w :
  OneMillion <= failurePpm fg -> delayPpm fg <= 0 ->
  FailMaybe fg w =
    Returned (Some errInjectedFailure,
              World (rand_src w) (S (S (rand_pos w))) (slept w)).
Proof.
  intros Hf Hd.
  pose proof (draw_OneMillion (rand_src w) (rand_pos w)) as H1.
  pose proof (draw_OneMillion (rand_src w) (S (rand_pos w))) as H2.
  rewrite FailMaybe_no_delay by lia.
  destruct (Z.ltb_spec (rand_src w (S (rand_pos w)) mod OneMillion)
              (failurePpm fg)); [reflexivity | lia].
Qed.



(** C7 (the code departs from it).  [SetDelayConfig] accepts a bound of
    zero microseconds; with it and a delay probability of 1.0 every call of
    [FailMaybe] panics in [rand.Int31n(0)], whatever the generator was
    before and whatever the random source. *)
Theorem C7_zero_delay_bound_panics (fg : FailureGeneratorImpl.t) (w : world) :
  exists fg',
    SetDelayConfig {| MaxDelayMicros := 0; DelayProbability := f32_one |} fg
      = (None, fg')
    /\ delayPpm fg' = OneMillion /\ maxDelayMicros fg' = 0
    /\ FailMaybe fg' w = Panicked "invalid argument to Int31n".
Proof.
  eexists. split; [reflexivity |]. cbn [delayPpm maxDelayMicros].
  split; [reflexivity |]. split; [reflexivity |].
  rewrite FailMaybe_delay.
  - reflexivity.
  - cbn [delayPpm]. apply draw_OneMillion.
Qed.

(** When the bound is positive the delay is drawn below it, in
    microseconds, and the call returns. *)
Lemma FailMaybe_delay_in_range fg w :
  0 < maxDelayMicros fg ->
  rand_src w (rand_pos w) mod OneMillion < delayPpm fg ->
  exists r e w',
    0 <= r < maxDelayMicros fg
    /\ FailMaybe fg w = Returned (e, w')
    /\ exists w1 w2, w' = World (rand_src w2) (S (rand_pos w2)) (slept w2)
                     /\ w2 = DelayFn fg (r * Microsecond) w1.
Proof.
  intros Hm Hd. rewrite (FailMaybe_delay _ _ Hd).
  destruct (Z.leb_spec (maxDelayMicros fg) 0); [lia |]. cbv zeta.
  eexists _, _, _. split; [| split; [reflexivity |]].
  - apply Z.mod_pos_bound. assumption.
  - eexists _, _. split; reflexivity.
Qed.

End failuregen_facts.

(** ** Probabilities below one part per million *)

Module ppm_facts.

Import failuregen.
Import FailureGeneratorImpl.
Import float32_facts failuregen_facts.

(** A positive float below [float32(0.000001)] is inside the unit
    interval. *)
Lemma sub_ppm_inside p :
  f32_lt f32_zero p = true -> f32_lt p f32_millionth = true ->
  f32_lt p f32_zero = false /\ f32_lt f32_one p = false.
Proof.
  intros Hpos Hlt.
  destruct p as [s | s | | s m e]; try discriminate Hpos.
  - destruct s; discriminate.
  - destruct s; [discriminate Hpos |].
    split; [reflexivity |].
    unfold f32_lt, SFltb, SFcompare, f32_millionth in Hlt.
    unfold f32_lt, SFltb, SFcompare, f32_one.
    destruct (e ?= -43) eqn:Hcmp; [| | discriminate Hlt].
    + apply Z.compare_eq_iff in Hcmp. subst e. reflexivity.
    + change (e < -43) in Hcmp.
      destruct (Z.compare_spec (-23) e); [lia | lia | reflexivity].
Qed.

(** What [SetFailureProbability] stores for a probability it accepts. *)
Lemma SetFailureProbability_inside fg p :
  f32_lt p f32_zero = false -> f32_lt f32_one p = false ->
  SetFailureProbability p fg =
    (None,
     {| failurePpm := int32_of_f32 (f32_mul p (f32_of_int OneMillion));
        delayPpm := delayPpm fg;
        maxDelayMicros := maxDelayMicros fg;
        DelayFn := DelayFn fg |}).
Proof.
  intros H0 H1. unfold SetFailureProbability. now rewrite ppm_inside.
Qed.

(** C10, as the code has it.  A probability inside the unit interval is
    stored as the truncation of its binary32 product with one million.  For
    a float that is positive and below [float32(0.000001)] that product is
    below 1.0: zero is stored, and no later call of [FailMaybe] fails. *)
Theorem C10_sub_ppm_probability_never_fails
    (fg : FailureGeneratorImpl.t) (p : float32)
    (Hfloat : is_float32 p)
    (Hpos : f32_lt f32_zero p = true)
    (Hsub : f32_lt p f32_millionth = true) :
  (forall q, f32_lt q f32_zero = false -> f32_lt f32_one q = false ->
     failurePpm (snd (SetFailureProbability q fg)) =
       int32_of_f32 (f32_mul q (f32_of_int OneMillion)))
  /\ exists fg',
       SetFailureProbability p fg = (None, fg')
       /\ failurePpm fg' = 0
       /\ forall w, ~ fails (FailMaybe fg' w).
Proof.
  split.
  - intros q H0 H1. now rewrite SetFailureProbability_inside.
  - destruct (sub_ppm_inside p Hpos Hsub) as [H0 H1].
    rewrite (SetFailureProbability_inside fg p H0 H1).
    eexists. split; [reflexivity |].
    assert (Hzero : int32_of_f32 (f32_mul p (f32_of_int OneMillion)) = 0).
    { rewrite f32_of_int_OneMillion.
      exact (sub_ppm_product_is_zero p Hfloat Hpos Hsub). }
    cbn [failurePpm]. split; [exact Hzero |].
    intros w Hfails. unfold fails in Hfails.
    match type of Hfails with
    | match FailMaybe ?g w with _ => _ end =>
        pose proof (FailMaybe_never_fails g w) as Hnever;
        destruct (FailMaybe g w) as [[[e |] w'] | msg]
    end; try exact Hfails.
    apply Hnever. cbn [failurePpm]. lia.
Qed.

Lemma C10_witness :
  exists fg',
    SetFailureProbability (S754_finite false 8796092 (-43)) NewFailureGenerator
      = (None, fg')
    /\ failurePpm fg' = 0
    /\ forall w, ~ fails (FailMaybe fg' w).
Proof.
  apply (C10_sub_ppm_probability_never_fails NewFailureGenerator
           (S754_finite false 8796092 (-43))); reflexivity.
Defined.

(** C10 as it is written fails at [float32(0.000001)]: that float is
    positive and less than 10^-6, yet its product with one million rounds
    to 1.0, one part per million is stored, and [FailMaybe] fails when the
    draw is zero. *)
Lemma C10_counterexample :
  is_float32 f32_millionth
  /\ (0 < f32_value f32_millionth)%Q
  /\ (f32_value f32_millionth < 1 # 1000000)%Q
  /\ f32_mul f32_millionth (f32_of_int OneMillion) = f32_one
  /\ failurePpm (snd (SetFailureProbability f32_millionth NewFailureGenerator))
     = 1
  /\ fails (FailMaybe
              (snd (SetFailureProbability f32_millionth NewFailureGenerator))
              zero_world).
Proof.
  repeat split.
Qed.

End ppm_facts.

(** ** The assured failure plan *)

Module plan_facts.

Import failuregen.
Import AssuredFailurePlanImpl.

Section Decoder.

Variable json_Unmarshal : string -> option (list FailurePoint).

Local Abbreviation query := (FailMaybe json_Unmarshal).
Local Abbreviation plan_of := (parse_plan json_Unmarshal).

Lemma FailMaybe_absent afp (fs : filesystem) point :
  fs !! PlanFilePath afp = None -> query afp fs point = None.
Proof. intros H. unfold FailMaybe. now rewrite H. Qed.

Lemma FailMaybe_listed afp (fs : filesystem) point content plan :
  fs !! PlanFilePath afp = Some content ->
  plan_of content = Some plan ->
  query afp fs point =
    if bool_decide (point ∈ plan) then Some errInjectedFailure else None.
Proof.
  intros Hfile Hplan. unfold FailMaybe.
  now rewrite Hfile, Hplan.
Qed.

Lemma FailMaybe_malformed afp (fs : filesystem) point content :
  fs !! PlanFilePath afp = Some content ->
  plan_of content = None ->
  query afp fs point = Some errInjectedFailure.
Proof.
  intros Hfile Hplan. unfold FailMaybe.
  now rewrite Hfile, Hplan.
Qed.

(** The answer is a function of the content of the plan file alone. *)
Lemma FailMaybe_same_content afp (fs fs' : filesystem) point :
  fs' !! PlanFilePath afp = fs !! PlanFilePath afp ->
  query afp fs' point = query afp fs point.
Proof. intros H. unfold FailMaybe. now rewrite H. Qed.

(** A query at the end of a history is answered from the files the
    history leaves, whatever was asked and answered before. *)
Lemma run_then_query afp point acts : forall fs : filesystem,
  run json_Unmarshal afp fs (acts ++ [Query point]) =
    (fst (run json_Unmarshal afp fs acts),
     snd (run json_Unmarshal afp fs acts)
       ++ [query afp (fst (run json_Unmarshal afp fs acts)) point]).
Proof.
  induction acts as [| a acts IH]; intros fs.
  - reflexivity.
  - destruct a as [path content | path | pt]; cbn [run app].
    + apply IH.
    + apply IH.
    + rewrite IH.
      destruct (run json_Unmarshal afp fs acts) as [fs' answers].
      reflexivity.
Qed.

(** Queries leave the files as they are. *)
Lemma run_query_keeps_files afp point acts (fs : filesystem) :
  fst (run json_Unmarshal afp fs (Query point :: acts)) =
  fst (run json_Unmarshal afp fs acts).
Proof.
  cbn [run]. now destruct (run json_Unmarshal afp fs acts).
Qed.

(** C1.  [FailMaybe(point)] succeeds when the plan file does not exist;
    when the file exists and reads as a list of failure points (the empty
    list and the empty file included) it returns the injected failure if
    and only if [point] is in the list, and succeeds otherwise; its answer
    is determined by the content of the file at the time of the call: two
    file systems that agree on the plan file give the same answer, and a
    query that follows any history of writes, removals and earlier queries
    is answered from the files that history leaves. *)
Theorem C1_plan_is_read_at_every_query afp (fs : filesystem) point :
  (fs !! PlanFilePath afp = None -> FailMaybe json_Unmarshal afp fs point = None)
  /\ (forall content plan,
        fs !! PlanFilePath afp = Some content ->
        parse_plan json_Unmarshal content = Some plan ->
        (FailMaybe json_Unmarshal afp fs point = Some errInjectedFailure
         <-> point ∈ plan)
        /\ (FailMaybe json_Unmarshal afp fs point = None <-> point ∉ plan))
  /\ parse_plan json_Unmarshal "" = Some []
  /\ (forall fs' : filesystem,
        fs' !! PlanFilePath afp = fs !! PlanFilePath afp ->
        FailMaybe json_Unmarshal afp fs' point
        = FailMaybe json_Unmarshal afp fs point)
  /\ (forall acts,
        snd (run json_Unmarshal afp fs (acts ++ [Query point])) =
        snd (run json_Unmarshal afp fs acts)
          ++ [FailMaybe json_Unmarshal afp
                (fst (run json_Unmarshal afp fs acts)) point]).
Proof.
  split; [apply FailMaybe_absent |].
  split.
  { intros content plan Hfile Hplan.
    rewrite (FailMaybe_listed _ _ _ _ _ Hfile Hplan).
    destruct (bool_decide_reflect (point ∈ plan)) as [Hin | Hnot].
    - split; split; intros; try done.
    - split; split; intros; try done. }
  split; [reflexivity |].
  split; [intros fs'; apply FailMaybe_same_content |].
  intros acts. now rewrite run_then_query.
Qed.

(** C2.  When the plan file exists and its content does not read as a
    list of failure points, [FailMaybe] returns the injected failure for
    every point. *)
Theorem C2_malformed_plan_fails_every_point
    afp (fs : filesystem) content
    (Hfile : fs !! PlanFilePath afp = Some content)
    (Hbad : parse_plan json_Unmarshal content = None) :
  forall point,
    FailMaybe json_Unmarshal afp fs point = Some errInjectedFailure.
Proof. intros point. now apply (FailMaybe_malformed _ _ _ content). Qed.

End Decoder.

Import scenario.

Lemma C1_witness :
  (FailMaybe json.Unmarshal test_afp (AssureFailuresAt test_plan)
     "BeforeMetadataMigration" = Some errInjectedFailure
   <-> "BeforeMetadataMigration"%string ∈ test_plan)
  /\ (FailMaybe json.Unmarshal test_afp (AssureFailuresAt test_plan)
        "BeforeMetadataMigration" = None
      <-> "BeforeMetadataMigration"%string ∉ test_plan).
Proof.
  destruct (C1_plan_is_read_at_every_query json.Unmarshal test_afp
              (AssureFailuresAt test_plan) "BeforeMetadataMigration")
    as (_ & Hlisted & _).
  apply (Hlisted (json.Marshal test_plan)); reflexivity.
Defined.

Lemma C2_witness :
  FailMaybe json.Unmarshal test_afp {[ test_path := "malformed"%string ]}
    "no such failure-point" = Some errInjectedFailure.
Proof.
  apply (C2_malformed_plan_fails_every_point json.Unmarshal test_afp
           {[ test_path := "malformed"%string ]} "malformed");
    reflexivity.
Defined.

(** The three tests of assured_failure_test.go, on the decoder of
    [json]. *)
Example test_injects_desired_failures :
  map (FailMaybe json.Unmarshal test_afp (AssureFailuresAt test_plan))
    ["SChTargetStateP1"; "AfterAdditiveSchemaChange";
     "BeforeMetadataMigration"; "SChTargetStateMT3";
     "no such failure-point"]%string
  = [None; Some errInjectedFailure; Some errInjectedFailure;
     Some errInjectedFailure; None].
Proof. reflexivity. Qed.

Example test_with_no_plan :
  snd (run json.Unmarshal test_afp (AssureFailuresAt [])
         [Query "SChTargetStateP1"; Query "no such failure-point";
          Remove test_path;
          Query "SChTargetStateP1"; Query "no such failure-point";
          WriteFile test_path "";
          Query "SChTargetStateP1"; Query "no such failure-point"])
  = [None; None; None; None; None; None].
Proof. reflexivity. Qed.

Example test_fails_for_malformed_plan :
  snd (run json.Unmarshal test_afp (AssureFailuresAt [])
         [WriteFile test_path "malformed";
          Query "SChTargetStateP1"; Query "no such failure-point"])
  = [Some errInjectedFailure; Some errInjectedFailure].
Proof. reflexivity. Qed.

(** The driver's edits take effect at the next query. *)
Example test_edit_between_queries :
  snd (run json.Unmarshal test_afp (AssureFailuresAt test_plan)
         [Query "SChTargetStateMT3";
          WriteFile test_path (json.Marshal ["SChTargetStateP1"]%string);
          Query "SChTargetStateMT3"; Query "SChTargetStateP1"])
  = [Some errInjectedFailure; None; Some errInjectedFailure].
Proof. reflexivity. Qed.

End plan_facts.

(** ** The relay *)

Module relay_facts.

Import failuregen testutil scenario.
Import failuregen_facts.

(** With a failure-ppm of one million, a call that cannot panic in its
    delay trial returns the injected failure. *)
Lemma FailMaybe_fails_when_it_returns fg w :
  OneMillion <= FailureGeneratorImpl.failurePpm fg ->
  FailureGeneratorImpl.delayPpm fg <= 0
  \/ 0 < FailureGeneratorImpl.maxDelayMicros fg ->
  exists w',
    FailureGeneratorImpl.FailMaybe fg w = Returned (Some errInjectedFailure, w').
Proof.
  intros Hf Hd.
  pose proof (FailMaybe_never_succeeds fg w Hf) as Hnever.
  destruct (Z.lt_ge_cases (rand_src w (rand_pos w) mod OneMillion)
              (FailureGeneratorImpl.delayPpm fg)) as [Hfire | Hquiet].
  - pose proof (draw_OneMillion (rand_src w) (rand_pos w)) as Hr.
    destruct Hd as [Hd | Hd]; [lia |].
    rewrite (FailMaybe_delay _ _ Hfire) in *.
    destruct (Z.leb_spec (FailureGeneratorImpl.maxDelayMicros fg) 0); [lia |].
    cbv zeta in *.
    destruct (_ <? _); [eexists; reflexivity | contradiction].
  - rewrite (FailMaybe_no_delay _ _ Hquiet) in *.
    destruct (_ <? _); [eexists; reflexivity | contradiction].
Qed.

(** [t.acceptFg.FailMaybe()] when the accept-time generator is a
    [FailureGeneratorImpl]. *)
Lemma acceptFg_FailMaybe_plain t fg :
  acceptFg t = plain fg ->
  acceptFg_FailMaybe t =
    match FailureGeneratorImpl.FailMaybe fg (env t) with
    | Returned (err, w) =>
        Returned (err, with_event Call_FailMaybe (with_acceptFg (plain fg) w t))
    | Panicked msg => Panicked msg
    end.
Proof.
  intros Hacc. unfold acceptFg_FailMaybe. rewrite Hacc. unfold plain.
  cbn [FailMaybe FailureGeneratorImpl_generator]. unfold bind.
  destruct (FailureGeneratorImpl.FailMaybe fg (env t)) as [[err w] | msg];
    reflexivity.
Qed.

(** The iteration of [serve] for an accepted connection on which the
    accept-time generator injects a failure. *)
Lemma serve_iter_injected_failure t fg c e w :
  acceptFg t = plain fg ->
  FailureGeneratorImpl.FailMaybe fg (env t) = Returned (Some e, w) ->
  exists t',
    serve_iter (Accepted c) t = Returned (false, t')
    /\ events t' = Go_handle c :: Close c :: Call_FailMaybe :: events t
    /\ handlers t' = c :: handlers t
    /\ wg t' = wg t + 1
    /\ FrontendDropCtr (stats t') = FrontendDropCtr (stats t) + 1
    /\ activeConnCtr (stats t') = activeConnCtr (stats t) - 1 + 1
    /\ backendDropCtr (stats t') = backendDropCtr (stats t)
    /\ acceptFg t' = plain fg.
Proof.
  intros Hacc Hfail. unfold serve_iter, bind.
  rewrite (acceptFg_FailMaybe_plain _ _ Hacc), Hfail.
  eexists. split; [reflexivity |]. cbn. repeat split.
Qed.

(** The iteration of [serve] for an accepted connection that the
    accept-time generator lets through. *)
Lemma serve_iter_accepted t fg c w :
  acceptFg t = plain fg ->
  FailureGeneratorImpl.FailMaybe fg (env t) = Returned (None, w) ->
  exists t',
    serve_iter (Accepted c) t = Returned (false, t')
    /\ events t' = Go_handle c :: Call_FailMaybe :: events t
    /\ handlers t' = c :: handlers t
    /\ wg t' = wg t + 1
    /\ FrontendDropCtr (stats t') = FrontendDropCtr (stats t)
    /\ activeConnCtr (stats t') = activeConnCtr (stats t) + 1
    /\ acceptFg t' = plain fg.
Proof.
  intros Hacc Hok. unfold serve_iter, bind.
  rewrite (acceptFg_FailMaybe_plain _ _ Hacc), Hok.
  eexists. split; [reflexivity |]. cbn. repeat split.
Qed.


(** C4 (the code departs from it).  When the accept-time generator injects
    a failure, [serve] closes the connection and records one frontend drop,
    and then goes on to start a handler for the same connection: the
    connection is among the pending handlers, and the last event is the
    start of its goroutine. *)
Theorem C4_dropped_connection_is_still_handled
    (t : testTCPProxy) (fg : FailureGeneratorImpl.t) (c : conn)
    (Hacc : acceptFg t = plain fg)
    (Hfull : OneMillion <= FailureGeneratorImpl.failurePpm fg)
    (Hquiet : FailureGeneratorImpl.delayPpm fg <= 0) :
  exists t',
    serve_iter (Accepted c) t = Returned (false, t')
    /\ events t' = Go_handle c :: Close c :: Call_FailMaybe :: events t
    /\ FrontendDropCtr (stats t') = FrontendDropCtr (stats t) + 1
    /\ c ∈ handlers t'.
Proof.
  destruct (FailMaybe_fails_when_it_returns fg (env t) Hfull (or_introl Hquiet))
    as [w Hfail].
  destruct (serve_iter_injected_failure t fg c _ w Hacc Hfail)
    as (t' & Hrun & Hev & Hh & _ & Hdrop & _).
  exists t'. repeat split; try assumption.
  rewrite Hh. apply list_elem_of_here.
Qed.

Lemma C4_witness :
  exists t',
    serve_iter (Accepted 1%nat) blocked_relay = Returned (false, t')
    /\ events t' = Go_handle 1%nat :: Close 1%nat :: Call_FailMaybe
                     :: events blocked_relay
    /\ FrontendDropCtr (stats t') = FrontendDropCtr (stats blocked_relay) + 1
    /\ 1%nat ∈ handlers t'.
Proof.
  apply (C4_dropped_connection_is_still_handled blocked_relay blocking 1%nat).
  - reflexivity.
  - vm_compute. discriminate.
  - vm_compute. discriminate.
Defined.

Lemma BlockIncomingConns_relay0 :
  BlockIncomingConns relay0 = Returned (tt, blocked_relay).
Proof. reflexivity. Qed.

(** C5 (the code departs from it).  On a relay that has just been told to
    block incoming connections, one accepted connection takes the
    active-connection counter to -1 in the accept loop (it is decremented
    for the drop before it is incremented for the handler), back to 0 when
    the handler is started, and to -1 again when the handler's cleanup
    closes the frontend side a second time: one increment, two decrements,
    and a negative counter once every goroutine of the connection is
    done. *)
Theorem C5_active_counter_goes_negative :
  observe (serve_until_drop 1%nat blocked_relay) =
    Some (tt, {| seen_stats := {| activeConnCtr := -1; FrontendDropCtr := 1;
                                  backendDropCtr := 0 |};
                 seen_handlers := [];
                 seen_events := [Close 1%nat; Call_FailMaybe];
                 seen_wg := 1 |})
  /\ observe (run_ops [Op_accept (Accepted 1%nat)] blocked_relay) =
    Some (tt, {| seen_stats := {| activeConnCtr := 0; FrontendDropCtr := 1;
                                  backendDropCtr := 0 |};
                 seen_handlers := [1%nat];
                 seen_events := [Go_handle 1%nat; Close 1%nat; Call_FailMaybe];
                 seen_wg := 2 |})
  /\ observe (run_ops [Op_accept (Accepted 1%nat);
                       Op_handler 1%nat closed_frontend_script] blocked_relay) =
    Some (tt, {| seen_stats := {| activeConnCtr := -1; FrontendDropCtr := 1;
                                  backendDropCtr := 0 |};
                 seen_handlers := [];
                 seen_events :=
                   [Close 1%nat; Close 2%nat; Close_selfTermCh 2%nat;
                    Close_selfTermCh 1%nat; Go_handle 1%nat; Close 1%nat;
                    Call_FailMaybe];
                 seen_wg := 1 |}).
Proof. repeat split; vm_compute; reflexivity. Qed.



Lemma is_not_EOF_iff err : is_not_EOF err = true <-> err <> io_EOF.
Proof. destruct err; cbn; split; intros; congruence. Qed.

(** An iteration of [copy] that finds a termination signal set returns
    success before it touches the source. *)
Lemma copy_iter_terminated dest src it buf t :
  peer_terminated it || (quit t || quit_closed it) = true ->
  copy_iter dest src it buf t = Returned ((buf, Return None), t).
Proof. intros H. unfold copy_iter, bind, get. now rewrite H. Qed.

Lemma copy_loop_terminated dest src it script buf t :
  peer_terminated it || (quit t || quit_closed it) = true ->
  copy_loop dest src (it :: script) buf t =
    Returned (Some None, with_event (Close_selfTermCh src) t).
Proof.
  intros H. cbn [copy_loop]. unfold bind at 1.
  now rewrite (copy_iter_terminated _ _ _ _ _ H).
Qed.

(** An iteration that reads: no termination signal, deadline set. *)
Lemma copy_iter_read_error dest src it buf t err :
  peer_terminated it = false -> quit t = false -> quit_closed it = false ->
  deadline_err it = None -> read_err it = Some err ->
  is_timeout err = true \/ is_not_EOF err = true ->
  copy_iter dest src it buf t =
    Returned ((fst (Read (read_data it) buf),
               if is_timeout err then Next
               else Return (Some (Wrap err "read"))), t).
Proof.
  intros Hp Hq Hc Hd Hr Hkind. unfold copy_iter, bind, get.
  rewrite Hp, Hq, Hc, Hd, Hr. cbn [orb].
  destruct (Read (read_data it) buf) as [buf' nr]. cbn [fst].
  destruct (is_timeout err); [reflexivity |].
  destruct Hkind as [? | ->]; [discriminate | reflexivity].
Qed.

Lemma copy_iter_end_of_stream dest src it buf t :
  peer_terminated it = false -> quit t = false -> quit_closed it = false ->
  deadline_err it = None ->
  read_err it = None \/ read_err it = Some io_EOF ->
  snd (Read (read_data it) buf) = 0%nat ->
  copy_iter dest src it buf t =
    Returned ((fst (Read (read_data it) buf), Return None), t).
Proof.
  intros Hp Hq Hc Hd Hr Hn. unfold copy_iter, bind, get.
  rewrite Hp, Hq, Hc, Hd. cbn [orb].
  destruct (Read (read_data it) buf) as [buf' nr]. cbn [fst snd] in *.
  subst nr. destruct Hr as [-> | ->]; reflexivity.
Qed.

(** C8.  In an iteration of the loop of [copy] that gets to read (no
    termination signal, deadline set): a read that fails with a timeout is
    no error, and the loop goes on with the rest of its iterations, the
    first thing each of which does is to look at the termination signals
    and return success when one is set; a read of zero bytes that ends with
    no error or with the end of the stream makes the loop return success;
    any other read error makes it return that error, wrapped. *)
Theorem C8_read_outcomes_of_copy
    (dest src : conn) (it : iteration) (buf : list Byte.byte)
    (t : testTCPProxy) (script : list iteration)
    (Hpeer : peer_terminated it = false)
    (Hquit : quit t = false)
    (Hclosed : quit_closed it = false)
    (Hdeadline : deadline_err it = None) :
  (forall err, read_err it = Some err -> is_timeout err = true ->
     copy_iter dest src it buf t
       = Returned ((fst (Read (read_data it) buf), Next), t)
     /\ copy_loop dest src (it :: script) buf t
        = copy_loop dest src script (fst (Read (read_data it) buf)) t
     /\ forall it' script' buf',
          peer_terminated it' || (quit t || quit_closed it') = true ->
          copy_loop dest src (it' :: script') buf' t
          = Returned (Some None, with_event (Close_selfTermCh src) t))
  /\ (read_err it = None \/ read_err it = Some io_EOF ->
      snd (Read (read_data it) buf) = 0%nat ->
      copy_loop dest src (it :: script) buf t
      = Returned (Some None, with_event (Close_selfTermCh src) t))
  /\ (forall err, read_err it = Some err ->
        is_timeout err = false -> err <> io_EOF ->
        copy_loop dest src (it :: script) buf t
        = Returned (Some (Some (Wrap err "read")),
                    with_event (Close_selfTermCh src) t)).
Proof.
  split; [| split].
  - intros err Herr Htimeout.
    pose proof (copy_iter_read_error dest src it buf t err Hpeer Hquit Hclosed
                  Hdeadline Herr (or_introl Htimeout)) as Hiter.
    rewrite Htimeout in Hiter.
    split; [exact Hiter |]. split.
    + cbn [copy_loop]. unfold bind at 1. now rewrite Hiter.
    + intros it' script' buf'. apply copy_loop_terminated.
  - intros Herr Hzero.
    cbn [copy_loop]. unfold bind at 1.
    now rewrite (copy_iter_end_of_stream dest src it buf t Hpeer Hquit Hclosed
                   Hdeadline Herr Hzero).
  - intros err Herr Htimeout Hnot.
    pose proof (copy_iter_read_error dest src it buf t err Hpeer Hquit Hclosed
                  Hdeadline Herr
                  (or_intror (proj2 (is_not_EOF_iff err) Hnot))) as Hiter.
    rewrite Htimeout in Hiter.
    cbn [copy_loop]. unfold bind at 1. now rewrite Hiter.
Qed.

Lemma C8_witness :
  copy_loop 2%nat 1%nat [read_fails (net_OpError true); peer_done]
    (replicate buf_size Byte.x00) relay0
  = copy_loop 2%nat 1%nat [peer_done]
      (fst (Read [] (replicate buf_size Byte.x00))) relay0.
Proof.
  pose proof (C8_read_outcomes_of_copy 2%nat 1%nat
                (read_fails (net_OpError true)) (replicate buf_size Byte.x00)
                relay0 [peer_done] eq_refl eq_refl eq_refl eq_refl)
    as (Htimeout & _).
  exact (proj1 (proj2 (Htimeout (net_OpError true) eq_refl eq_refl))).
Defined.

(** A loop that only meets timeouts is still running when they are used
    up, and returns success at the first signal after them. *)
Lemma copy_loop_timeouts dest src t (n : nat) : forall buf,
  quit t = false ->
  copy_loop dest src (replicate n (read_fails (net_OpError true))) buf t
  = Returned (None, t).
Proof.
  induction n as [| n IH]; intros buf Hquit; [reflexivity |].
  cbn [replicate copy_loop]. unfold bind at 1.
  rewrite (copy_iter_read_error dest src _ buf t (net_OpError true))
    by (try reflexivity; try assumption; now left).
  cbn [is_timeout]. now apply IH.
Qed.

(** The consultation of a receive-time generator that has the
    content-conditioned capability: [FailOnCondition] is called with the
    buffer it is given, the plain check is not called (the random source is
    where it was), and a failure counts one backend drop. *)
Lemma recv_check_conditional t g buf :
  recvFg t = conditional g ->
  exists t',
    recv_check buf t =
      Returned
        (match PatternFailureGenerator.FailOnCondition buf g with
         | Some err =>
             Some (Wrap err "injected recv failure on satisfying condition")
         | None => None
         end, t')
    /\ events t' = Call_FailOnCondition buf :: events t
    /\ env t' = env t
    /\ backendDropCtr (stats t') =
         backendDropCtr (stats t)
         + match PatternFailureGenerator.FailOnCondition buf g with
           | Some _ => 1
           | None => 0
           end
    /\ recvFg t' = conditional g.
Proof.
  intros Hrecv. unfold recv_check. rewrite Hrecv. unfold conditional.
  cbn [FailOnCondition PatternFailureGenerator_conditional]. unfold ret.
  destruct (PatternFailureGenerator.FailOnCondition buf g) as [err |].
  - eexists. split; [reflexivity |]. cbn. repeat split; lia.
  - eexists. split; [reflexivity |]. cbn. repeat split; lia.
Qed.

(** The consultation of a receive-time generator without the capability:
    the plain check is called, and a failure counts one backend drop. *)
Lemma recv_check_plain t fg buf e w :
  recvFg t = plain fg ->
  FailureGeneratorImpl.FailMaybe fg (env t) = Returned (e, w) ->
  exists t',
    recv_check buf t =
      Returned
        (match e with
         | Some err => Some (Wrap err "injected recv failure")
         | None => None
         end, t')
    /\ events t' = Call_FailMaybe :: events t
    /\ env t' = w
    /\ backendDropCtr (stats t') =
         backendDropCtr (stats t) + match e with Some _ => 1 | None => 0 end
    /\ recvFg t' = plain fg.
Proof.
  intros Hrecv Hcall. unfold recv_check. rewrite Hrecv. unfold plain.
  cbn [FailMaybe FailureGeneratorImpl_generator]. unfold bind at 1.
  rewrite Hcall. unfold ret.
  destruct e as [err |].
  - eexists. split; [reflexivity |]. cbn. repeat split; lia.
  - eexists. split; [reflexivity |]. cbn. repeat split; lia.
Qed.

(** C3 (the code departs from it).  [copy] hands [FailOnCondition] the
    whole 1024-byte buffer, not the bytes of the read: after a read of
    [xROP] and a read of [D], the second call receives [DROP] followed by
    1020 zero bytes, and the generator that fails on [DROP] fails, though
    neither read holds the pattern.  The rest is as the claim has it: the
    plain check is not called, one backend drop is counted and the loop
    ends with the error. *)
Theorem C3_FailOnCondition_is_given_the_whole_buffer :
  observe (copy 2%nat 1%nat stale_script pattern_relay) =
    Some (Some (Some (Wrap errInjectedFailure
                        "injected recv failure on satisfying condition")),
          {| seen_stats := {| activeConnCtr := 0; FrontendDropCtr := 0;
                              backendDropCtr := 1 |};
             seen_handlers := [];
             seen_events :=
               [Close_selfTermCh 1%nat;
                Call_FailOnCondition
                  (bytes "DROP" ++ replicate 1020 Byte.x00);
                Write 2%nat (bytes "xROP");
                Call_FailOnCondition
                  (bytes "xROP" ++ replicate 1020 Byte.x00)];
             seen_wg := 1 |})
  /\ PatternFailureGenerator.FailOnCondition (bytes "xROP") drop_pattern = None
  /\ PatternFailureGenerator.FailOnCondition (bytes "D") drop_pattern = None.
Proof. repeat split; vm_compute; reflexivity. Qed.

End relay_facts.

(** ** The range of the stored parts per million *)

Module ppm_range_facts.

Import failuregen.
Import float32_facts failuregen_facts.

Lemma digits2_lower p : 2 ^ Zpos (digits2_pos p) <= 2 * Zpos p.
Proof.
  rewrite digits2_pos_size. pose proof (Pos.size_le p) as Hs.
  apply Pos2Z.pos_le_pos in Hs. rewrite Pos2Z.inj_pow in Hs.
  exact Hs.
Qed.

(** The first shift and the rounding keep a value that is below [K] at
    most [K], when the unit of the result divides [K]. *)
Lemma first_stage_at_most (N : positive) (E K kd : Z) :
  0 < K -> E <= 0 -> 0 <= kd -> kd + E - 24 <= 0 ->
  Zpos N < 2 ^ kd -> Zpos N < K * 2 ^ (- E) ->
  forall mrs' e', shr_fexp 24 128 (Zpos N) E loc_Exact = (mrs', e') ->
  let m1 := round_nearest_even (shr_m mrs') (loc_of_shr_record mrs') in
  0 <= m1 /\ e' <= 0 /\ m1 <= K * 2 ^ (- e').
Proof.
  intros HK HE Hkd Hk HN Hval mrs' e' Hshr m1.
  unfold shr_fexp in Hshr. cbn [Zdigits2 shr_record_of_loc] in Hshr.
  pose proof (digits2_le N kd Hkd HN) as Hd.
  set (n1 := fexp 24 128 (Zpos (digits2_pos N) + E) - E) in Hshr.
  assert (Hn1 : E + n1 <= 0).
  { subst n1. unfold fexp, emin. lia. }
  destruct (shr_cases (Build_shr_record (Zpos N) false false) E n1)
    as [[Hle Heq] | [Hgt (mrs1 & Heq & Hm)]]; [cbn; lia | |];
    rewrite Heq in Hshr; injection Hshr as <- <-.
  - subst m1. cbn. repeat split; lia.
  - cbn [shr_m] in Hm.
    assert (Hp1 : 0 < 2 ^ n1) by (apply Z.pow_pos_nonneg; lia).
    assert (Hsplit : 2 ^ (- E) = 2 ^ n1 * 2 ^ (- (E + n1))).
    { rewrite <- Z.pow_add_r by lia. f_equal. lia. }
    assert (Hq : shr_m mrs1 < K * 2 ^ (- (E + n1))).
    { rewrite Hm. apply Z.div_lt_upper_bound; [lia |]. nia. }
    assert (Hq0 : 0 <= shr_m mrs1).
    { rewrite Hm. apply Z.div_pos; lia. }
    pose proof (round_nearest_even_bounds (shr_m mrs1) (loc_of_shr_record mrs1)).
    subst m1. repeat split; lia.
Qed.

(** Such a mantissa is converted to an integer of [[0, K]], whatever the
    second shift does with it. *)
Lemma second_stage_at_most (m1 e' K : Z) :
  0 < K -> K < 2 ^ 20 -> 0 <= m1 -> e' <= 0 -> m1 <= K * 2 ^ (- e') ->
  forall mrs'' e'', shr_fexp 24 128 m1 e' loc_Exact = (mrs'', e'') ->
  0 <= int32_of_f32
         match shr_m mrs'' with
         | Z0 => S754_zero false
         | Zpos m => if e'' <=? 128 - 24 then S754_finite false m e''
                     else S754_infinity false
         | Zneg _ => S754_nan
         end <= K.
Proof.
  intros HK HK20 Hm0 He Hm mrs'' e'' Hshr.
  change (2 ^ 20) with 1048576 in HK20.
  unfold shr_fexp in Hshr. cbn [shr_record_of_loc] in Hshr.
  set (n2 := fexp 24 128 (Zdigits2 m1 + e') - e') in Hshr.
  assert (Hpe : 0 < 2 ^ (- e')) by (apply Z.pow_pos_nonneg; lia).
  assert (Hfin : forall q e, e <= 0 -> Zpos q <= K * 2 ^ (- e) ->
            0 <= int32_of_f32 (if e <=? 128 - 24 then S754_finite false q e
                               else S754_infinity false) <= K).
  { intros q e Hneg Hq.
    destruct (Z.leb_spec e (128 - 24)); [| lia].
    cbn [int32_of_f32].
    rewrite Z.shiftl_div_pow2 by lia.
    assert (Hpow : 0 < 2 ^ (- e)) by (apply Z.pow_pos_nonneg; lia).
    assert (Hlo : 0 <= Zpos q / 2 ^ (- e)) by (apply Z.div_pos; lia).
    assert (Hhi : Zpos q / 2 ^ (- e) <= K).
    { apply Z.div_le_upper_bound; lia. }
    unfold int32_min, int32_max.
    destruct (Z.leb_spec (-2147483648) (Zpos q / 2 ^ (- e))); [| lia].
    destruct (Z.leb_spec (Zpos q / 2 ^ (- e)) 2147483647); [| lia].
    cbn [andb]. lia. }
  destruct (shr_cases (Build_shr_record m1 false false) e' n2)
    as [[Hle Heq] | [Hgt (mrs2 & Heq & Hm2)]]; [cbn; lia | |];
    rewrite Heq in Hshr; injection Hshr as <- <-.
  - cbn [shr_m]. destruct m1 as [| q | q]; [cbn; lia | | lia].
    now apply Hfin.
  - cbn [shr_m] in Hm2.
    assert (Hp2 : 0 < 2 ^ n2) by (apply Z.pow_pos_nonneg; lia).
    destruct (shr_m mrs2) as [| q | q] eqn:Hq; [cbn; lia | |].
    + destruct m1 as [| p1 | p1]; [rewrite Z.div_0_l in Hm2 by lia; lia | | lia].
      assert (Hd1 : Zpos (digits2_pos p1) <= 20 - e').
      { apply digits2_le; [lia |].
        replace (20 - e') with (20 + - e') by lia.
        rewrite Z.pow_add_r by lia. change (2 ^ 20) with 1048576. nia. }
      assert (He'' : e' + n2 <= 0).
      { subst n2. cbn [Zdigits2]. unfold fexp, emin. lia. }
      apply Hfin; [exact He'' |].
      assert (Hsplit : 2 ^ (- e') = 2 ^ n2 * 2 ^ (- (e' + n2))).
      { rewrite <- Z.pow_add_r by lia. f_equal. lia. }
      assert (Hpr : 0 < 2 ^ (- (e' + n2))) by (apply Z.pow_pos_nonneg; lia).
      rewrite Hm2.
      apply Z.div_le_upper_bound; [lia |]. nia.
    + assert (0 <= m1 / 2 ^ n2) by (apply Z.div_pos; lia). lia.
Qed.

Lemma round_at_most (N : positive) (E K kd : Z) :
  0 < K -> K < 2 ^ 20 -> E <= 0 -> 0 <= kd -> kd + E - 24 <= 0 ->
  Zpos N < 2 ^ kd -> Zpos N < K * 2 ^ (- E) ->
  0 <= int32_of_f32 (binary_round_aux 24 128 false (Zpos N) E loc_Exact) <= K.
Proof.
  intros HK HK20 HE Hkd Hk HN Hval. unfold binary_round_aux.
  destruct (shr_fexp 24 128 (Zpos N) E loc_Exact) as [mrs' e'] eqn:H1.
  destruct (first_stage_at_most N E K kd HK HE Hkd Hk HN Hval _ _ H1)
    as (Hm0 & He & Hm).
  destruct (shr_fexp 24 128 _ e' loc_Exact) as [mrs'' e''] eqn:H2.
  exact (second_stage_at_most _ _ K HK HK20 Hm0 He Hm _ _ H2).
Qed.

Lemma ppm_accepted_range (p : float32)
    (Hfloat : is_float32 p)
    (Hnumber : p <> S754_nan)
    (Hlow : f32_lt p f32_zero = false)
    (Hhigh : f32_lt f32_one p = false) :
  exists k, ppm p = (k, None) /\ 0 <= k <= OneMillion.
Proof.
  rewrite (ppm_inside p Hlow Hhigh), f32_of_int_OneMillion.
  eexists. split; [reflexivity |].
  destruct p as [s | s | | s m e].
  - cbn. unfold OneMillion. lia.
  - destruct s; discriminate.
  - congruence.
  - destruct s; [discriminate Hlow |].
    destruct (valid_mantissa _ _ _ Hfloat) as [He Hm].
    change (2 ^ 24) with 16777216 in Hm.
    unfold f32_lt, SFltb, SFcompare, f32_one in Hhigh.
    unfold f32_mul, f32_prec, f32_emax. cbn [SFmul xorb].
    destruct (-23 ?= e) eqn:Hcmp; [| discriminate Hhigh |].
    + apply Z.compare_eq_iff in Hcmp. subst e.
      assert (Hle : ~ (8388608 < m)%positive).
      { intros Hlt. change (PosDef.Pos.compare_cont Eq 8388608 m = Lt) in Hlt.
        rewrite Hlt in Hhigh. discriminate. }
      assert (Hge : 8388608 <= Zpos m).
      { unfold is_float32, f32_prec, f32_emax in Hfloat.
        cbn [valid_binary] in Hfloat.
        unfold bounded, canonical_mantissa, fexp, emin in Hfloat.
        apply andb_true_iff in Hfloat as [Hc _]. apply Z.eqb_eq in Hc.
        assert (Hd : Zpos (digits2_pos m) = 24) by lia.
        pose proof (digits2_lower m) as Hlower. rewrite Hd in Hlower.
        change (2 ^ 24) with 16777216 in Hlower. lia. }
      assert (Hm1 : m = 8388608%positive) by lia.
      subst m. vm_compute. split; discriminate.
    + change (-23 > e) in Hcmp.
      assert (Hmono : 2 ^ 28 <= 2 ^ (- (e + -4)))
        by (apply Z.pow_le_mono_r; lia).
      change (2 ^ 28) with 268435456 in Hmono.
      clear Hfloat Hlow Hhigh.
      unfold OneMillion.
      apply (round_at_most (m * 16000000) (e + -4) 1000000 48); lia.
Qed.

(** X1.  Every number of the unit interval is converted to a number of parts
    per million between 0 and one million.  (A NaN is accepted by [ppm]
    too; its conversion is the implementation's choice.) *)
Theorem ppm_in_range (p : float32)
    (Hfloat : is_float32 p)
    (Hnumber : p <> S754_nan)
    (Hlow : f32_lt p f32_zero = false)
    (Hhigh : f32_lt f32_one p = false) :
  exists k, ppm p = (k, None) /\ 0 <= k <= OneMillion.
Proof.
  exact (ppm_accepted_range p Hfloat Hnumber Hlow Hhigh).
Qed.

Lemma ppm_in_range_witness :
  exists k, ppm scenario.f32_0_2 = (k, None) /\ 0 <= k <= OneMillion.
Proof.
  apply ppm_in_range; [reflexivity | discriminate | reflexivity | reflexivity].
Defined.

End ppm_range_facts.

(** ** Further properties of the probabilistic generator *)

Module generator_facts.

Import failuregen measure.
Import FailureGeneratorImpl.
Import failuregen_facts ppm_range_facts.

(** X2.  The setters keep the fields of a generator in range: a rejected call
    changes nothing, an accepted one stores parts per million of
    [[0, OneMillion]] and a bound that is not negative. *)
Theorem setters_keep_well_configured
    (fg : FailureGeneratorImpl.t) (p : float32) (c : DelayConfig)
    (Hp : is_float32 p) (Hpn : p <> S754_nan)
    (Hc : is_float32 (DelayProbability c))
    (Hcn : DelayProbability c <> S754_nan)
    (Hfg : well_configured fg) :
  well_configured (snd (SetFailureProbability p fg))
  /\ well_configured (snd (SetDelayConfig c fg)).
Proof.
  unfold well_configured in *. destruct Hfg as (Hf & Hd & Hm). split.
  - unfold SetFailureProbability.
    destruct (f32_lt p f32_zero || f32_lt f32_one p) eqn:Hout.
    + unfold ppm. rewrite Hout. cbn [snd]. lia.
    + apply orb_false_iff in Hout as [H0 H1].
      destruct (ppm_accepted_range p Hp Hpn H0 H1) as (k & -> & Hk).
      cbn [snd failurePpm delayPpm maxDelayMicros]. lia.
  - unfold SetDelayConfig.
    destruct (f32_lt (DelayProbability c) f32_zero
              || f32_lt f32_one (DelayProbability c)) eqn:Hout.
    + unfold ppm. rewrite Hout. cbn [snd]. lia.
    + apply orb_false_iff in Hout as [H0 H1].
      destruct (ppm_accepted_range _ Hc Hcn H0 H1) as (k & -> & Hk).
      destruct (Z.ltb_spec (MaxDelayMicros c) 0);
        cbn [snd failurePpm delayPpm maxDelayMicros]; lia.
Qed.

Lemma setters_keep_well_configured_witness :
  well_configured
    (snd (SetFailureProbability scenario.f32_0_2 NewFailureGenerator))
  /\ well_configured
       (snd (SetDelayConfig {| MaxDelayMicros := 50;
                               DelayProbability := scenario.f32_0_2 |}
               NewFailureGenerator)).
Proof.
  apply setters_keep_well_configured;
    [reflexivity | discriminate | reflexivity | discriminate |].
  unfold well_configured. cbn. unfold OneMillion. lia.
Defined.

(** X3.  The two setters work on different fields: whatever their arguments,
    accepted or not, the two orders of calling them leave the same
    generator, and each returns the error it returns alone. *)
Theorem setters_commute
    (fg : FailureGeneratorImpl.t) (p : float32) (c : DelayConfig) :
  snd (SetDelayConfig c (snd (SetFailureProbability p fg)))
  = snd (SetFailureProbability p (snd (SetDelayConfig c fg)))
  /\ fst (SetDelayConfig c (snd (SetFailureProbability p fg)))
     = fst (SetDelayConfig c fg)
  /\ fst (SetFailureProbability p (snd (SetDelayConfig c fg)))
     = fst (SetFailureProbability p fg).
Proof.
  unfold SetDelayConfig, SetFailureProbability.
  destruct (ppm p) as [k [e |]];
    destruct (ppm (DelayProbability c)) as [d [e' |]];
    destruct (MaxDelayMicros c <? 0); repeat split.
Qed.

Lemma FailMaybe_outcome
    (fg : FailureGeneratorImpl.t) (w w' : world) (e : option error)
    (Hsleep : DelayFn fg = time_Sleep)
    (Hcall : FailMaybe fg w = Returned (e, w')) :
  (e = None \/ e = Some errInjectedFailure)
  /\ rand_src w' = rand_src w
  /\ (slept w' = slept w /\ rand_pos w' = S (S (rand_pos w))
      \/ exists r,
           0 <= r < maxDelayMicros fg
           /\ slept w' = r * Microsecond :: slept w
           /\ rand_pos w' = S (S (S (rand_pos w)))).
Proof.
  destruct (Z.lt_ge_cases (rand_src w (rand_pos w) mod OneMillion) (delayPpm fg))
    as [Hfire | Hquiet].
  - rewrite (FailMaybe_delay _ _ Hfire) in Hcall.
    destruct (Z.leb_spec (maxDelayMicros fg) 0) as [? | Hpos];
      [discriminate Hcall |].
    cbv zeta in Hcall. rewrite Hsleep in Hcall.
    cbn [time_Sleep rand_src rand_pos slept] in Hcall.
    injection Hcall as <- <-. cbn [rand_src rand_pos slept].
    split; [destruct (_ <? _); [right | left]; reflexivity |].
    split; [reflexivity |]. right.
    exists (rand_src w (S (rand_pos w)) mod maxDelayMicros fg).
    split; [now apply Z.mod_pos_bound |]. split; reflexivity.
  - rewrite (FailMaybe_no_delay _ _ Hquiet) in Hcall.
    injection Hcall as <- <-. cbn [rand_src rand_pos slept].
    split; [destruct (_ <? _); [right | left]; reflexivity |].
    split; [reflexivity |]. left. split; reflexivity.
Qed.



Lemma filter_all (f : Z -> bool) (l : list Z) :
  (forall x, x ∈ l -> f x = true) -> List.filter f l = l.
Proof.
  induction l as [| a l IH]; intros Hall; [reflexivity |].
  cbn [List.filter]. rewrite (Hall a) by apply list_elem_of_here.
  f_equal. apply IH. intros x Hx. apply Hall. now apply list_elem_of_further.
Qed.

Lemma filter_none (f : Z -> bool) (l : list Z) :
  (forall x, x ∈ l -> f x = false) -> List.filter f l = [].
Proof.
  induction l as [| a l IH]; intros Hall; [reflexivity |].
  cbn [List.filter]. rewrite (Hall a) by apply list_elem_of_here.
  apply IH. intros x Hx. apply Hall. now apply list_elem_of_further.
Qed.

(** Without a delay configured, [FailMaybe] fails on a draw exactly when
    the draw is below the failure-ppm. *)
Lemma fails_at_draw fg r :
  delayPpm fg <= 0 -> 0 <= r < OneMillion ->
  fails_at fg r = (r <? failurePpm fg).
Proof.
  intros Hd Hr. unfold fails_at.
  assert (Hmod : r mod OneMillion = r) by (apply Z.mod_small; exact Hr).
  rewrite FailMaybe_no_delay
    by (unfold drawing; cbn [rand_src rand_pos]; rewrite Hmod; lia).
  unfold drawing. cbn [rand_src rand_pos]. rewrite Hmod.
  now destruct (r <? failurePpm fg).
Qed.

(** X5.  The failure probability is honoured to the part per million: of the
    million equally likely values of the draw, exactly failure-ppm make
    [FailMaybe] return the injected failure. *)
Theorem FailMaybe_fails_on_ppm_draws_in_a_million
    (fg : FailureGeneratorImpl.t)
    (Hquiet : delayPpm fg <= 0)
    (Hrange : 0 <= failurePpm fg <= OneMillion) :
  length (failing_draws fg) = Z.to_nat (failurePpm fg).
Proof.
  unfold failing_draws.
  replace OneMillion with (failurePpm fg + (OneMillion - failurePpm fg))
    at 1 by lia.
  rewrite seqZ_app by lia. rewrite List.filter_app.
  rewrite filter_all, filter_none.
  - rewrite app_nil_r. apply length_seqZ.
  - intros x Hx. apply elem_of_seqZ in Hx.
    rewrite fails_at_draw by lia.
    destruct (Z.ltb_spec x (failurePpm fg)); [lia | reflexivity].
  - intros x Hx. apply elem_of_seqZ in Hx.
    rewrite fails_at_draw by lia.
    destruct (Z.ltb_spec x (failurePpm fg)); [reflexivity | lia].
Qed.

Lemma FailMaybe_fails_on_ppm_draws_in_a_million_witness :
  length (failing_draws
            (snd (SetFailureProbability scenario.f32_0_2 NewFailureGenerator)))
  = Z.to_nat 200000.
Proof.
  apply (FailMaybe_fails_on_ppm_draws_in_a_million
           (snd (SetFailureProbability scenario.f32_0_2 NewFailureGenerator))).
  - vm_compute. discriminate.
  - vm_compute. split; discriminate.
Defined.

End generator_facts.

(** ** Further properties of the relay *)

Module relay_accounts.

Import failuregen testutil measure.
Import failuregen_facts relay_facts.

Lemma undisturbed_refl t : undisturbed t t.
Proof. unfold undisturbed. repeat split. Qed.

Lemma undisturbed_trans t1 t2 t3 :
  undisturbed t1 t2 -> undisturbed t2 t3 -> undisturbed t1 t3.
Proof.
  unfold undisturbed.
  intros (A1 & B1 & C1 & D1 & E1 & F1 & G1) (A2 & B2 & C2 & D2 & E2 & F2 & G2).
  repeat split; try congruence; intros c; now rewrite G2, G1.
Qed.

(** The consultation of the receive-time generator, whatever the
    generator is, disturbs nothing. *)
Lemma recv_check_undisturbed buf t r t' :
  recv_check buf t = Returned (r, t') -> undisturbed t t'.
Proof.
  unfold recv_check. destruct (recvFg t) as [G ops cond v].
  destruct cond as [C |].
  - destruct (FailOnCondition buf v (env t)) as [[[[err |] v'] w] | msg];
      intros H; try discriminate H; injection H as <- <-;
      unfold undisturbed; cbn; repeat split.
  - destruct (FailMaybe v (env t)) as [[[[err |] v'] w] | msg];
      intros H; try discriminate H; injection H as <- <-;
      unfold undisturbed; cbn; repeat split.
Qed.

(** An iteration of [copy] disturbs nothing. *)
Lemma copy_iter_undisturbed dest src it buf t r t' :
  copy_iter dest src it buf t = Returned (r, t') -> undisturbed t t'.
Proof.
  unfold copy_iter, bind, get.
  destruct (peer_terminated it || (quit t || quit_closed it)).
  { intros H. injection H as <- <-. apply undisturbed_refl. }
  destruct (deadline_err it) as [derr |].
  { intros H. injection H as <- <-. apply undisturbed_refl. }
  destruct (Read (read_data it) buf) as [buf' nr].
  assert (Hafter :
    (if (nr =? 0)%nat then ret (buf', Return None)
     else
       fun s =>
         match recv_check buf' s with
         | Returned (a, s') =>
             match a with
             | Some err => ret (buf', Return (Some err))
             | None =>
                 fun s0 =>
                   match emit (Write dest (take nr buf')) s0 with
                   | Returned (_, s'0) =>
                       match write_err it with
                       | Some err => ret (buf', Return (Some (Wrap err "write")))
                       | None => ret (buf', Next)
                       end s'0
                   | Panicked msg => Panicked msg
                   end
             end s'
         | Panicked msg => Panicked msg
         end) t = Returned (r, t') -> undisturbed t t').
  { destruct (nr =? 0)%nat.
    - intros H. injection H as <- <-. apply undisturbed_refl.
    - destruct (recv_check buf' t) as [[[err |] t1] | msg] eqn:Hcheck;
        try discriminate.
      + intros H. injection H as <- <-.
        exact (recv_check_undisturbed _ _ _ _ Hcheck).
      + pose proof (recv_check_undisturbed _ _ _ _ Hcheck) as Hframe.
        unfold emit, modify.
        destruct (write_err it); intros H; injection H as <- <-;
          (eapply undisturbed_trans; [exact Hframe |]);
          unfold undisturbed; cbn; repeat split. }
  destruct (read_err it) as [rerr |]; [| exact Hafter].
  destruct (is_timeout rerr).
  { intros H. injection H as <- <-. apply undisturbed_refl. }
  destruct (is_not_EOF rerr); [| exact Hafter].
  intros H. injection H as <- <-. apply undisturbed_refl.
Qed.

(** So does the whole loop. *)
Lemma copy_loop_undisturbed dest src script : forall buf t r t',
  copy_loop dest src script buf t = Returned (r, t') -> undisturbed t t'.
Proof.
  induction script as [| it script IH]; intros buf t r t'.
  - intros H. injection H as <- <-. apply undisturbed_refl.
  - cbn [copy_loop]. unfold bind at 1.
    destruct (copy_iter dest src it buf t) as [[[buf' fl] t1] | msg] eqn:Hiter;
      [| discriminate].
    pose proof (copy_iter_undisturbed _ _ _ _ _ _ _ Hiter) as Hframe.
    destruct fl as [| err].
    + intros H. eapply undisturbed_trans; [exact Hframe |]. eapply IH, H.
    + unfold bind, emit, modify, ret. intros H. injection H as <- <-.
      eapply undisturbed_trans; [exact Hframe |].
      unfold undisturbed; cbn; repeat split.
Qed.

Lemma closeFrontendConn_effect c reason t :
  exists t',
    closeFrontendConn c reason t = Returned (tt, t')
    /\ activeConnCtr (stats t') = activeConnCtr (stats t) - 1
    /\ FrontendDropCtr (stats t') =
         FrontendDropCtr (stats t) + (if String.eqb reason "drop" then 1 else 0)
    /\ backendDropCtr (stats t') = backendDropCtr (stats t)
    /\ handlers t' = handlers t /\ wg t' = wg t
    /\ serving t' = serving t /\ quit t' = quit t
    /\ events t' = Close c :: events t.
Proof.
  unfold closeFrontendConn, bind, emit, modify.
  destruct (String.eqb reason "drop"); eexists; (split; [reflexivity |]);
    cbn; repeat split; lia.
Qed.

Lemma closes_cons_Close c d evs :
  closes d (Close c :: evs) =
  ((if (c =? d)%nat then 1 else 0) + closes d evs)%nat.
Proof. cbn [closes]. now destruct (c =? d)%nat. Qed.

Lemma handle_accounts
    (c : conn) (hs : handle_script) (t t' : testTCPProxy)
    (r : option error)
    (Hreturns : handle c hs t = Returned (Some r, t')) :
  (forall d,
     closes d (events t') =
     (closes d (events t)
      + (if (c =? d)%nat then 1 else 0)
      + match dial hs with
        | inl backendConn => if (backendConn =? d)%nat then 1 else 0
        | inr _ => 0
        end)%nat)
  /\ activeConnCtr (stats t') = activeConnCtr (stats t) - 1
  /\ FrontendDropCtr (stats t') = FrontendDropCtr (stats t)
  /\ handlers t' = handlers t /\ wg t' = wg t
  /\ serving t' = serving t /\ quit t' = quit t.
Proof.
  unfold handle in Hreturns. destruct (dial hs) as [backendConn | derr].
  - unfold bind at 1 in Hreturns.
    destruct (copy backendConn c (onward hs) t) as [[r1 t1] | msg] eqn:H1;
      [| discriminate].
    unfold bind at 1 in Hreturns.
    destruct (copy c backendConn (backward hs) t1) as [[r2 t2] | msg] eqn:H2;
      [| discriminate].
    pose proof (copy_loop_undisturbed _ _ _ _ _ _ _ H1)
      as (A1 & B1 & C1 & D1 & E1 & F1 & G1).
    pose proof (copy_loop_undisturbed _ _ _ _ _ _ _ H2)
      as (A2 & B2 & C2 & D2 & E2 & F2 & G2).
    destruct r1 as [r1 |]; [| discriminate Hreturns].
    destruct r2 as [r2 |]; [| discriminate Hreturns].
    unfold bind at 1, emit, modify in Hreturns.
    destruct (closeFrontendConn_effect c "" (with_event (Close backendConn) t2))
      as (t3 & Hclose & A3 & B3 & _ & C3 & D3 & E3 & F3 & G3).
    unfold bind at 1 in Hreturns. rewrite Hclose in Hreturns.
    injection Hreturns as <- <-.
    cbn in A3, B3, C3, D3, E3, F3, G3.
    split.
    { intros d. rewrite G3, !closes_cons_Close, G2, G1. lia. }
    repeat split; try congruence; lia.
  - unfold bind at 1 in Hreturns.
    destruct (closeFrontendConn_effect c "" t)
      as (t3 & Hclose & A3 & B3 & _ & C3 & D3 & E3 & F3 & G3).
    rewrite Hclose in Hreturns. injection Hreturns as <- <-.
    cbn in B3.
    split.
    { intros d. rewrite G3, closes_cons_Close. lia. }
    repeat split; try congruence; lia.
Qed.

(** X8.  A handler that returns has closed the frontend connection once and,
    when the dial succeeded, the backend connection once, whatever its two
    loops met and whatever the generators answered; it has decremented the
    active-connection counter once and left the other accounts alone. *)
Theorem handle_closes_each_socket_once
    (c : conn) (hs : handle_script) (t t' : testTCPProxy)
    (r : option error)
    (Hreturns : handle c hs t = Returned (Some r, t')) :
  (forall d,
     closes d (events t') =
     (closes d (events t)
      + (if (c =? d)%nat then 1 else 0)
      + match dial hs with
        | inl backendConn => if (backendConn =? d)%nat then 1 else 0
        | inr _ => 0
        end)%nat)
  /\ activeConnCtr (stats t') = activeConnCtr (stats t) - 1
  /\ FrontendDropCtr (stats t') = FrontendDropCtr (stats t)
  /\ handlers t' = handlers t /\ wg t' = wg t
  /\ serving t' = serving t /\ quit t' = quit t.
Proof.
  exact (handle_accounts c hs t t' r Hreturns).
Qed.

Lemma handle_closes_each_socket_once_witness :
  closes 1%nat
    [Close 1%nat; Close 2%nat; Close_selfTermCh 2%nat; Close_selfTermCh 1%nat]
  = (closes 1%nat (events scenario.relay0) + 1 + 0)%nat.
Proof.
  pose proof (handle_closes_each_socket_once 1%nat
                scenario.closed_frontend_script scenario.relay0
                (with_event (Close 1%nat)
                   (with_stats
                      (fun st => {| activeConnCtr := activeConnCtr st - 1;
                                    FrontendDropCtr := FrontendDropCtr st;
                                    backendDropCtr := backendDropCtr st |})
                      (with_event (Close 2%nat)
                         (with_event (Close_selfTermCh 2%nat)
                            (with_event (Close_selfTermCh 1%nat)
                               scenario.relay0)))))
                None eq_refl) as (Hcloses & _).
  exact (Hcloses 1%nat).
Defined.

Lemma acceptFg_FailMaybe_undisturbed t err t' :
  acceptFg_FailMaybe t = Returned (err, t') -> undisturbed t t'.
Proof.
  unfold acceptFg_FailMaybe. destruct (acceptFg t) as [G ops cond v].
  destruct (FailMaybe v (env t)) as [[[e v'] w] | msg];
    intros H; try discriminate H; injection H as <- <-.
  unfold undisturbed; cbn; repeat split.
Qed.

(** What an iteration of the accept loop does to the accounts. *)
Lemma serve_iter_accounts a t b t' :
  serve_iter a t = Returned (b, t') ->
  match a with
  | Accept_error _ => t' = t /\ b = quit t
  | Accepted c =>
      b = false
      /\ handlers t' = c :: handlers t
      /\ wg t' = wg t + 1
      /\ activeConnCtr (stats t') + FrontendDropCtr (stats t')
         = activeConnCtr (stats t) + FrontendDropCtr (stats t) + 1
      /\ serving t' = serving t
      /\ quit t' = quit t
  end.
Proof.
  destruct a as [c | err]; cbn [serve_iter].
  - unfold bind at 1.
    destruct (acceptFg_FailMaybe t) as [[e t1] | msg] eqn:Hcall;
      [| discriminate].
    pose proof (acceptFg_FailMaybe_undisturbed _ _ _ Hcall)
      as (A1 & B1 & C1 & D1 & E1 & F1 & _).
    destruct e as [e |].
    + unfold bind at 1.
      destruct (closeFrontendConn_effect c "drop" t1)
        as (t2 & Hclose & A2 & B2 & _ & C2 & D2 & E2 & F2 & _).
      rewrite Hclose.
      change (FrontendDropCtr (stats t2) = FrontendDropCtr (stats t1) + 1)
        in B2.
      unfold bind, wg_Add, activeConnCtr_Inc, go_handle, emit, modify, ret.
      intros H. injection H as <- <-. cbn.
      repeat split; try congruence; lia.
    + unfold bind, wg_Add, activeConnCtr_Inc, go_handle, emit, modify, ret.
      intros H. injection H as <- <-. cbn.
      repeat split; try congruence; lia.
  - unfold bind, get, ret.
    destruct (quit t); intros H; injection H as <- <-; split; reflexivity.
Qed.

Lemma length_remove_one c l :
  c ∈ l -> S (length (remove_one c l)) = length l.
Proof.
  induction l as [| x l IH]; intros Hin.
  - now apply not_elem_of_nil in Hin.
  - cbn [remove_one]. destruct (Nat.eqb_spec x c) as [-> | Hne].
    + reflexivity.
    + apply elem_of_cons in Hin as [-> | Hin]; [congruence |].
      cbn [length]. now rewrite IH.
Qed.

(** Every operation on a relay keeps its accounts. *)
Lemma accounted_apply_op op t t' :
  accounted t -> apply_op op t = Returned (tt, t') -> accounted t'.
Proof.
  unfold accounted, goroutines. intros [Hact Hwg].
  destruct op as [a | c hs | |]; cbn [apply_op].
  - unfold bind at 1, get. destruct (serving t) eqn:Hserving.
    + cbn [serve]. unfold bind at 1.
      destruct (serve_iter a t) as [[b t1] | msg] eqn:Hiter; [| discriminate].
      pose proof (serve_iter_accounts _ _ _ _ Hiter) as Hacc.
      destruct a as [c | err].
      * destruct Hacc as (-> & Hh & Hw & Hsum & Hs & Hq).
        unfold ret. intros H. injection H as <-.
        rewrite Hh, Hs. try rewrite Hserving. cbn [length]. lia.
      * destruct Hacc as (-> & ->).
        destruct (quit t).
        -- unfold bind, wg_Done, modify. intros H. injection H as <-.
           cbn. try rewrite Hserving in Hwg. lia.
        -- unfold ret. intros H. injection H as <-.
           try rewrite Hserving. lia.
    + unfold ret. intros H. injection H as <-. try rewrite Hserving. lia.
  - unfold run_handler.
    destruct (bool_decide_reflect (c ∈ handlers t)) as [Hin | Hnot].
    + destruct (handle c hs t) as [[[r |] t1] | msg] eqn:Hhandle;
        try discriminate.
      * pose proof (handle_accounts _ _ _ _ _ Hhandle)
          as (_ & A & B & C & D & E & F).
        unfold bind, wg_Done, modify. intros H. injection H as <-.
        cbn. rewrite C. pose proof (length_remove_one c _ Hin) as Hlen.
        rewrite E. lia.
      * intros H. injection H as <-. lia.
    + intros H. injection H as <-. lia.
  - unfold Stop, bind, get. destruct (quit t); [discriminate |].
    unfold modify. intros H. injection H as <-. cbn. lia.
  - unfold BlockIncomingConns. destruct (acceptFg t) as [G ops cond v].
    destruct (SetFailureProbability f32_one v) as [e v'].
    intros H. injection H as <-. cbn. lia.
Qed.

Lemma accounted_run_ops ops : forall t t',
  accounted t -> run_ops ops t = Returned (tt, t') -> accounted t'.
Proof.
  induction ops as [| op ops IH]; intros t t' Hacc.
  - intros H. injection H as <-. exact Hacc.
  - cbn [run_ops]. unfold bind at 1.
    destruct (apply_op op t) as [[[] t1] | msg] eqn:Hop; [| discriminate].
    intros H. eapply IH; [| exact H].
    exact (accounted_apply_op _ _ _ Hacc Hop).
Qed.

(** X9.  In every run of a new relay, whatever the generators, the accepted
    connections and the handlers do, the active-connection counter and the
    frontend-drop counter together equal the number of pending handlers,
    and the wait group counts the accept loop and the pending handlers. *)
Theorem counters_account_for_the_handlers
    (ops : list operation) (frontendPort backendPort : Z)
    (recvFg acceptFg : generator) (w : world) (t' : testTCPProxy)
    (Hrun : run_ops ops (listening frontendPort backendPort recvFg acceptFg w)
            = Returned (tt, t')) :
  activeConnCtr (Stats t') + FrontendDropCtr (Stats t')
    = Z.of_nat (length (handlers t'))
  /\ wg t' = (if serving t' then 1 else 0) + Z.of_nat (length (handlers t')).
Proof.
  change (accounted t').
  eapply accounted_run_ops; [| exact Hrun].
  unfold accounted, goroutines. cbn. lia.
Qed.

Lemma counters_account_for_the_handlers_witness :
  let t' := final scenario.relay0
              (run_ops [Op_BlockIncomingConns; Op_accept (Accepted 1%nat)]
                 scenario.relay0) in
  activeConnCtr (Stats t') + FrontendDropCtr (Stats t')
    = Z.of_nat (length (handlers t'))
  /\ wg t' = (if serving t' then 1 else 0) + Z.of_nat (length (handlers t')).
Proof.
  apply (counters_account_for_the_handlers
           [Op_BlockIncomingConns; Op_accept (Accepted 1%nat)]
           8080 9090 (scenario.plain NewFailureGenerator)
           (scenario.plain NewFailureGenerator) zero_world).
  reflexivity.
Defined.

End relay_accounts.

(** ** Shutdown *)

Module relay_shutdown.

Import failuregen testutil measure.
Import failuregen_facts relay_facts relay_accounts.

(** X10.  While [quit] is open the accept loop outlives any number of accept
    errors: it goes on with the next answer of [Accept], its state
    untouched. *)
Theorem serve_outlives_accept_errors
    (t : testTCPProxy) (errs : list error) (rest : list accept_result)
    (Hopen : quit t = false) :
  serve (map Accept_error errs ++ rest) t = serve rest t.
Proof.
  induction errs as [| e errs IH]; [reflexivity |].
  cbn [map app serve serve_iter]. unfold bind, get, ret.
  rewrite Hopen. exact IH.
Qed.

Lemma serve_outlives_accept_errors_witness :
  serve (map Accept_error [errOther "too many open files"; io_EOF]
           ++ [Accepted 1%nat]) scenario.relay0
  = serve [Accepted 1%nat] scenario.relay0.
Proof.
  apply (serve_outlives_accept_errors scenario.relay0
           [errOther "too many open files"; io_EOF] [Accepted 1%nat]).
  reflexivity.
Defined.

(** X11.  [Stop] closes [quit], so a second [Stop] panics, whatever the relay. *)
Theorem Stop_twice_panics (t : testTCPProxy) :
  run_ops [Op_Stop; Op_Stop] t = Panicked "close of closed channel".
Proof.
  cbn [run_ops apply_op]. unfold bind at 1. unfold Stop at 1.
  unfold bind at 1, get. destruct (quit t); [reflexivity |].
  reflexivity.
Qed.

(** Once [quit] is closed the accept loop returns at the next accept
    error, calls [wg.Done()] once, and accepts nothing of what follows. *)
Lemma serve_returns_after_quit t e rest :
  quit t = true ->
  serve (Accept_error e :: rest) t
  = Returned (tt, with_serving false (with_wg (fun c => c - 1) t)).
Proof.
  intros Hq. cbn [serve serve_iter]. unfold bind, get, ret, wg_Done, modify.
  now rewrite Hq.
Qed.

(** Once [quit] is closed a loop of [copy] returns success at its first
    iteration: [copy] does not read and does not write. *)
Lemma copy_after_quit dest src it script t :
  quit t = true ->
  copy dest src (it :: script) t
  = Returned (Some None, with_event (Close_selfTermCh src) t).
Proof.
  intros Hq. unfold copy. apply copy_loop_terminated.
  rewrite Hq. now destruct (peer_terminated it).
Qed.

(** Once [quit] is closed a handler whose loops run at all returns. *)
Lemma handle_after_quit c hs t :
  quit t = true -> onward hs <> [] -> backward hs <> [] ->
  exists r t', handle c hs t = Returned (Some r, t').
Proof.
  intros Hq Hon Hback. unfold handle.
  destruct (dial hs) as [backendConn | derr].
  - destruct (onward hs) as [| it1 s1]; [congruence |].
    destruct (backward hs) as [| it2 s2]; [congruence |].
    unfold bind at 1. rewrite (copy_after_quit _ _ _ _ _ Hq).
    unfold bind at 1. rewrite copy_after_quit by exact Hq.
    unfold bind at 1, emit, modify.
    destruct (closeFrontendConn_effect c ""
                (with_event (Close backendConn)
                   (with_event (Close_selfTermCh backendConn)
                      (with_event (Close_selfTermCh c) t))))
      as (t3 & Hclose & _).
    unfold bind at 1. rewrite Hclose. eexists _, _. reflexivity.
  - unfold bind at 1.
    destruct (closeFrontendConn_effect c "" t) as (t3 & Hclose & _).
    rewrite Hclose. eexists _, _. reflexivity.
Qed.

(** The pending handlers of a relay whose [quit] is closed all finish. *)
Lemma handlers_drain (hs_of : conn -> handle_script) :
  (forall c, onward (hs_of c) <> [] /\ backward (hs_of c) <> []) ->
  forall l t,
    quit t = true -> handlers t = l ->
    exists t',
      run_ops (map (fun c => Op_handler c (hs_of c)) l) t = Returned (tt, t')
      /\ handlers t' = []
      /\ wg t' = wg t - Z.of_nat (length l)
      /\ serving t' = serving t
      /\ quit t' = true
      /\ activeConnCtr (stats t') = activeConnCtr (stats t) - Z.of_nat (length l)
      /\ FrontendDropCtr (stats t') = FrontendDropCtr (stats t).
Proof.
  intros Hscripts l. induction l as [| c l IH]; intros t Hq Hh.
  - exists t. cbn. repeat split; try assumption; lia.
  - cbn [map run_ops apply_op]. unfold bind at 1. unfold run_handler.
    rewrite Hh.
    destruct (bool_decide_reflect (c ∈ c :: l)) as [_ | Hnot];
      [| exfalso; apply Hnot, list_elem_of_here].
    destruct (Hscripts c) as [Hon Hback].
    destruct (handle_after_quit c (hs_of c) t Hq Hon Hback)
      as (r & t1 & Hhandle).
    rewrite Hhandle.
    destruct (handle_accounts _ _ _ _ _ Hhandle)
      as (_ & A & B & C & D & E & F).
    unfold bind at 1, wg_Done, modify.
    set (t2 := with_handlers (remove_one c) (with_wg (fun n => n - 1) t1)).
    assert (Hh2 : handlers t2 = l).
    { subst t2. cbn. rewrite C, Hh. cbn [remove_one].
      now rewrite Nat.eqb_refl. }
    assert (Hq2 : quit t2 = true) by (subst t2; cbn; congruence).
    destruct (IH t2 Hq2 Hh2) as (t' & Hrun & H1 & H2 & H3 & H4 & H5 & H6).
    exists t'. split; [exact Hrun |].
    subst t2. cbn in H2, H3, H5, H6. cbn [length].
    repeat split; try assumption; try congruence; lia.
Qed.

(** X12.  [Stop] drains the relay: after [Stop], the accept error it provokes
    and the run of every pending handler, the wait group is at zero, so
    that [Stop] returns, no handler is pending, and the active-connection
    counter is the opposite of the frontend-drop counter: zero when no
    connection was dropped at accept time. *)
Theorem Stop_drains_the_relay
    (t : testTCPProxy) (e : error) (hs_of : conn -> handle_script)
    (Hacc : accounted t)
    (Hopen : quit t = false)
    (Hserving : serving t = true)
    (Hscripts : forall c, onward (hs_of c) <> [] /\ backward (hs_of c) <> []) :
  exists t',
    run_ops (Op_Stop :: Op_accept (Accept_error e)
               :: map (fun c => Op_handler c (hs_of c)) (handlers t)) t
    = Returned (tt, t')
    /\ stopped t' = true
    /\ handlers t' = []
    /\ serving t' = false
    /\ FrontendDropCtr (Stats t') = FrontendDropCtr (Stats t)
    /\ activeConnCtr (Stats t') = - FrontendDropCtr (Stats t').
Proof.
  destruct Hacc as [Hact Hwg]. unfold goroutines in Hwg.
  rewrite Hserving in Hwg.
  cbn [run_ops apply_op]. unfold bind at 1. unfold Stop.
  unfold bind at 1, get. rewrite Hopen. unfold bind at 1, modify.
  set (t1 := with_listener_closed (with_quit t)).
  unfold bind at 1. unfold bind at 1, get.
  change (serving t1) with (serving t). rewrite Hserving.
  rewrite (serve_returns_after_quit t1 e []) by reflexivity.
  set (t2 := with_serving false (with_wg (fun c => c - 1) t1)).
  destruct (handlers_drain hs_of Hscripts (handlers t) t2 eq_refl eq_refl)
    as (t' & Hrun & H1 & H2 & H3 & H4 & H5 & H6).
  exists t'. split; [exact Hrun |].
  subst t2 t1. cbn in H2, H3, H5, H6.
  unfold stopped, Stats. rewrite H4.
  repeat split; try assumption.
  - apply Z.eqb_eq. lia.
  - lia.
Qed.

Lemma Stop_drains_the_relay_witness :
  exists t',
    run_ops (Op_Stop :: Op_accept (Accept_error io_EOF)
               :: map (fun c => Op_handler c scenario.closed_frontend_script)
                    (handlers after_one_drop)) after_one_drop
    = Returned (tt, t')
    /\ stopped t' = true
    /\ handlers t' = []
    /\ serving t' = false
    /\ FrontendDropCtr (Stats t') = FrontendDropCtr (Stats after_one_drop)
    /\ activeConnCtr (Stats t') = - FrontendDropCtr (Stats t').
Proof.
  apply (Stop_drains_the_relay after_one_drop io_EOF
           (fun _ => scenario.closed_frontend_script)).
  - vm_compute. split; reflexivity.
  - reflexivity.
  - reflexivity.
  - intros c. split; discriminate.
Defined.

End relay_shutdown.

(** ** What the copy loop forwards *)

Module relay_copy.

Import failuregen testutil measure.
Import failuregen_facts relay_facts.

Lemma Read_fits (data buf : list Byte.byte) :
  (length data <= length buf)%nat ->
  Read data buf = (data ++ drop (length data) buf, length data)
  /\ length (data ++ drop (length data) buf) = length buf
  /\ take (length data) (data ++ drop (length data) buf) = data.
Proof.
  intros Hfit. unfold Read. rewrite take_ge by exact Hfit.
  split; [reflexivity |]. split.
  - rewrite length_app, length_drop. lia.
  - now rewrite take_app_length.
Qed.

(** A plain generator that never fails lets a read through. *)
Lemma recv_check_passes t fg buf :
  recvFg t = scenario.plain fg ->
  FailureGeneratorImpl.failurePpm fg <= 0 ->
  FailureGeneratorImpl.delayPpm fg <= 0 ->
  exists t',
    recv_check buf t = Returned (None, t')
    /\ events t' = Call_FailMaybe :: events t
    /\ stats t' = stats t
    /\ quit t' = quit t
    /\ recvFg t' = scenario.plain fg.
Proof.
  intros Hrecv Hf Hd.
  pose proof (draw_OneMillion (rand_src (env t)) (rand_pos (env t))) as H1.
  pose proof (draw_OneMillion (rand_src (env t)) (S (rand_pos (env t)))) as H2.
  assert (Hcall : FailureGeneratorImpl.FailMaybe fg (env t) =
            Returned (None, World (rand_src (env t))
                              (S (S (rand_pos (env t)))) (slept (env t)))).
  { rewrite FailMaybe_no_delay by lia.
    destruct (Z.ltb_spec (rand_src (env t) (S (rand_pos (env t))) mod OneMillion)
                (FailureGeneratorImpl.failurePpm fg)); [lia | reflexivity]. }
  unfold recv_check. rewrite Hrecv. unfold scenario.plain.
  cbn [FailMaybe FailureGeneratorImpl_generator]. unfold bind at 1.
  rewrite Hcall. unfold ret.
  eexists. split; [reflexivity |]. cbn. repeat split.
Qed.

Lemma copy_iter_delivers dest src it data buf t fg :
  delivers it data ->
  recvFg t = scenario.plain fg ->
  FailureGeneratorImpl.failurePpm fg <= 0 ->
  FailureGeneratorImpl.delayPpm fg <= 0 ->
  quit t = false -> length buf = buf_size ->
  exists t',
    copy_iter dest src it buf t
    = Returned ((data ++ drop (length data) buf, Next), t')
    /\ events t' = Write dest data :: Call_FailMaybe :: events t
    /\ stats t' = stats t
    /\ quit t' = false
    /\ recvFg t' = scenario.plain fg.
Proof.
  intros (Hp & Hc & Hd & Hw & Hdata & Hne & Hfit & Herr) Hrecv Hf Hdl Hq Hbuf.
  rewrite <- Hbuf in Hfit.
  destruct (Read_fits data buf Hfit) as (Hread & _ & Htake).
  assert (Hnr : (length data =? 0)%nat = false).
  { apply Nat.eqb_neq. destruct data; [congruence | discriminate]. }
  destruct (recv_check_passes t fg (data ++ drop (length data) buf)
              Hrecv Hf Hdl) as (t1 & Hcheck & Hev & Hst & Hq1 & Hr1).
  assert (Hafter :
    copy_iter dest src it buf t
    = Returned ((data ++ drop (length data) buf, Next),
                with_event (Write dest data) t1)).
  { unfold copy_iter, bind, get. rewrite Hp, Hq, Hc, Hd, Hdata, Hread.
    cbn [orb]. cbv beta iota zeta. rewrite Hnr.
    unfold emit, modify, ret.
    destruct Herr as [-> | ->]; cbn [is_timeout is_not_EOF];
      cbv beta iota zeta; rewrite Hcheck, Htake, Hw; reflexivity. }
  eexists. split; [exact Hafter |]. cbn.
  repeat split; congruence.
Qed.

Lemma written_Write dest data evs :
  written dest (Write dest data :: Call_FailMaybe :: evs)
  = written dest evs ++ data.
Proof. cbn [written]. now rewrite Nat.eqb_refl. Qed.

Lemma copy_loop_delivers dest src fg script : forall chunks buf t,
  Forall2 delivers script chunks ->
  recvFg t = scenario.plain fg ->
  FailureGeneratorImpl.failurePpm fg <= 0 ->
  FailureGeneratorImpl.delayPpm fg <= 0 ->
  quit t = false -> length buf = buf_size ->
  exists t',
    copy_loop dest src script buf t = Returned (None, t')
    /\ written dest (events t') = written dest (events t) ++ concat chunks
    /\ stats t' = stats t.
Proof.
  induction script as [| it script IH]; intros chunks buf t Hall Hrecv Hf Hd Hq Hbuf.
  - apply Forall2_nil_inv_l in Hall. subst chunks.
    exists t. cbn. rewrite app_nil_r. repeat split.
  - apply Forall2_cons_inv_l in Hall as (data & chunks' & Hit & Hrest & ->).
    destruct (copy_iter_delivers dest src it data buf t fg Hit Hrecv Hf Hd Hq
                Hbuf) as (t1 & Hiter & Hev & Hst & Hq1 & Hr1).
    assert (Hbuf1 : length (data ++ drop (length data) buf) = buf_size).
    { destruct Hit as (_ & _ & _ & _ & _ & _ & Hfit & _).
      rewrite <- Hbuf in Hfit.
      destruct (Read_fits data buf Hfit) as (_ & Hlen & _). congruence. }
    destruct (IH chunks' _ t1 Hrest Hr1 Hf Hd Hq1 Hbuf1)
      as (t' & Hloop & Hwritten & Hstats).
    exists t'. cbn [copy_loop]. unfold bind at 1. rewrite Hiter.
    split; [exact Hloop |]. split; [| congruence].
    rewrite Hwritten, Hev, written_Write. cbn [concat].
    now rewrite app_assoc.
Qed.

(** X13.  The relay is faithful: when the receive-time generator is a plain one
    that never fails and each read delivers some bytes (at most a
    bufferful, with or without the end of the stream), [copy] writes to the
    destination exactly the bytes read, in the order they were read, and
    counts no drop. *)
Theorem copy_relays_the_bytes_in_order
    (dest src : conn) (script : list iteration)
    (chunks : list (list Byte.byte)) (t : testTCPProxy)
    (fg : FailureGeneratorImpl.t)
    (Hreads : Forall2 delivers script chunks)
    (Hplain : recvFg t = scenario.plain fg)
    (Hnever : FailureGeneratorImpl.failurePpm fg <= 0)
    (Hquiet : FailureGeneratorImpl.delayPpm fg <= 0)
    (Hopen : quit t = false) :
  exists t',
    copy dest src script t = Returned (None, t')
    /\ written dest (events t') = written dest (events t) ++ concat chunks
    /\ Stats t' = Stats t.
Proof.
  unfold copy, Stats.
  apply (copy_loop_delivers dest src fg script chunks); try assumption.
  apply length_replicate.
Qed.

Lemma copy_relays_the_bytes_in_order_witness :
  exists t',
    copy 2%nat 1%nat scenario.stale_script scenario.relay0
    = Returned (None, t')
    /\ written 2%nat (events t')
       = written 2%nat (events scenario.relay0)
         ++ concat [scenario.bytes "xROP"; scenario.bytes "D"]
    /\ Stats t' = Stats scenario.relay0.
Proof.
  apply (copy_relays_the_bytes_in_order 2%nat 1%nat scenario.stale_script
           [scenario.bytes "xROP"; scenario.bytes "D"] scenario.relay0
           NewFailureGenerator).
  - repeat constructor; try discriminate; vm_compute; lia.
  - reflexivity.
  - vm_compute. discriminate.
  - vm_compute. discriminate.
  - reflexivity.
Defined.

(** X14.  When the plain check injects a failure, the bytes of that read are
    not forwarded: the loop ends with the wrapped injected failure, one
    backend drop is counted, and nothing more has been written. *)
Theorem copy_drops_the_read_on_injected_failure
    (dest src : conn) (it : iteration) (script : list iteration)
    (data buf : list Byte.byte) (t : testTCPProxy)
    (fg : FailureGeneratorImpl.t)
    (Hread : delivers it data)
    (Hbuf : length buf = buf_size)
    (Hplain : recvFg t = scenario.plain fg)
    (Halways : OneMillion <= FailureGeneratorImpl.failurePpm fg)
    (Hquiet : FailureGeneratorImpl.delayPpm fg <= 0)
    (Hopen : quit t = false) :
  exists t',
    copy_loop dest src (it :: script) buf t
    = Returned (Some (Some (Wrap errInjectedFailure "injected recv failure")),
                t')
    /\ written dest (events t') = written dest (events t)
    /\ backendDropCtr (Stats t') = backendDropCtr (Stats t) + 1.
Proof.
  destruct Hread as (Hp & Hc & Hd & Hw & Hdata & Hne & Hfit & Herr).
  rewrite <- Hbuf in Hfit.
  destruct (Read_fits data buf Hfit) as (HRead & _ & Htake).
  assert (Hnr : (length data =? 0)%nat = false).
  { apply Nat.eqb_neq. destruct data; [congruence | discriminate]. }
  destruct (FailMaybe_fails_when_it_returns fg (env t) Halways
              (or_introl Hquiet)) as (w & Hcall).
  destruct (recv_check_plain t fg (data ++ drop (length data) buf) _ w
              Hplain Hcall) as (t1 & Hcheck & Hev & _ & Hdrop & _).
  assert (Hiter :
    copy_iter dest src it buf t
    = Returned ((data ++ drop (length data) buf,
                 Return (Some (Wrap errInjectedFailure "injected recv failure"))),
                t1)).
  { unfold copy_iter, bind, get. rewrite Hp, Hopen, Hc, Hd, Hdata, HRead.
    cbn [orb]. cbv beta iota zeta. rewrite Hnr.
    destruct Herr as [-> | ->]; cbn [is_timeout is_not_EOF];
      cbv beta iota zeta; rewrite Hcheck; reflexivity. }
  cbn [copy_loop]. unfold bind at 1. rewrite Hiter.
  unfold bind, emit, modify, ret.
  eexists. split; [reflexivity |]. unfold Stats. cbn.
  rewrite Hev. cbn [written]. split; [reflexivity | lia].
Qed.

Lemma copy_drops_the_read_on_injected_failure_witness :
  exists t',
    copy_loop 2%nat 1%nat [scenario.reads (scenario.bytes "D")]
      (replicate buf_size Byte.x00)
      (with_recvFg (scenario.plain scenario.blocking) zero_world
         scenario.relay0)
    = Returned (Some (Some (Wrap errInjectedFailure "injected recv failure")),
                t')
    /\ written 2%nat (events t')
       = written 2%nat
           (events (with_recvFg (scenario.plain scenario.blocking) zero_world
                      scenario.relay0))
    /\ backendDropCtr (Stats t')
       = backendDropCtr
           (Stats (with_recvFg (scenario.plain scenario.blocking) zero_world
                     scenario.relay0)) + 1.
Proof.
  apply (copy_drops_the_read_on_injected_failure 2%nat 1%nat
           (scenario.reads (scenario.bytes "D")) [] (scenario.bytes "D")
           (replicate buf_size Byte.x00)
           (with_recvFg (scenario.plain scenario.blocking) zero_world
              scenario.relay0)
           scenario.blocking).
  - repeat split; try discriminate; try (left; reflexivity).
    vm_compute. lia.
  - reflexivity.
  - reflexivity.
  - vm_compute. discriminate.
  - vm_compute. discriminate.
  - reflexivity.
Defined.

End relay_copy.

(** ** Runs of calls and of accepts *)

Module run_facts.

Import failuregen testutil measure.
Import FailureGeneratorImpl.
Import failuregen_facts relay_facts relay_accounts generator_facts.

(** X6.  Over any number of consecutive calls, a generator with no failure and
    no delay configured (the new generator, or one set to probability 0)
    never fails and never sleeps, and one with failure probability 1 and no
    delay configured fails every time. *)
Theorem FailMaybe_times_at_the_extremes
    (n : nat) (fg : FailureGeneratorImpl.t) (w : world)
    (Hquiet : delayPpm fg <= 0) :
  (failurePpm fg <= 0 ->
   exists w', FailMaybe_times n fg w = Returned (replicate n None, w')
              /\ slept w' = slept w)
  /\ (OneMillion <= failurePpm fg ->
      exists w',
        FailMaybe_times n fg w
        = Returned (replicate n (Some errInjectedFailure), w')
        /\ slept w' = slept w).
Proof.
  split.
  - intros Hnever. revert w. induction n as [| n IH]; intros w.
    + exists w. split; reflexivity.
    + cbn [FailMaybe_times replicate]. unfold bind at 1.
      pose proof (draw_OneMillion (rand_src w) (rand_pos w)) as H1.
      pose proof (draw_OneMillion (rand_src w) (S (rand_pos w))) as H2.
      rewrite FailMaybe_no_delay by lia.
      destruct (Z.ltb_spec (rand_src w (S (rand_pos w)) mod OneMillion)
                  (failurePpm fg)); [lia |].
      destruct (IH (World (rand_src w) (S (S (rand_pos w))) (slept w)))
        as (w' & Hrun & Hslept).
      unfold bind at 1. rewrite Hrun. exists w'. split; [reflexivity |].
      exact Hslept.
  - intros Halways. revert w. induction n as [| n IH]; intros w.
    + exists w. split; reflexivity.
    + cbn [FailMaybe_times replicate]. unfold bind at 1.
      rewrite (FailMaybe_always_fails fg w Halways Hquiet).
      destruct (IH (World (rand_src w) (S (S (rand_pos w))) (slept w)))
        as (w' & Hrun & Hslept).
      unfold bind at 1. rewrite Hrun. exists w'. split; [reflexivity |].
      exact Hslept.
Qed.

Lemma FailMaybe_times_at_the_extremes_witness :
  exists w',
    FailMaybe_times 3 NewFailureGenerator zero_world
    = Returned (replicate 3 None, w')
    /\ slept w' = slept zero_world.
Proof.
  apply (FailMaybe_times_at_the_extremes 3 NewFailureGenerator zero_world).
  - vm_compute. discriminate.
  - vm_compute. discriminate.
Defined.

(** X7.  With [time.Sleep] as the delay function and a positive bound, [n]
    calls that return have slept less than [n] times the bound in all. *)
Theorem FailMaybe_times_sleeps_less_than_n_bounds
    (n : nat) (fg : FailureGeneratorImpl.t) (w w' : world)
    (es : list (option error))
    (Hsleep : DelayFn fg = time_Sleep)
    (Hbound : 0 < maxDelayMicros fg)
    (Hcalls : FailMaybe_times n fg w = Returned (es, w')) :
  length es = n
  /\ total_slept w <= total_slept w'
     <= total_slept w
        + Z.of_nat n * ((maxDelayMicros fg - 1) * Microsecond).
Proof.
  revert w w' es Hcalls. induction n as [| n IH]; intros w w' es Hcalls.
  - injection Hcalls as <- <-. cbn [length]. split; [reflexivity | lia].
  - cbn [FailMaybe_times] in Hcalls. unfold bind at 1 in Hcalls.
    destruct (FailMaybe fg w) as [[e w1] | msg] eqn:Hone; [| discriminate].
    unfold bind at 1 in Hcalls.
    destruct (FailMaybe_times n fg w1) as [[es1 w2] | msg] eqn:Hrest;
      [| discriminate].
    injection Hcalls as <- <-.
    destruct (IH _ _ _ Hrest) as (Hlen & Hlo & Hhi).
    destruct (FailMaybe_outcome fg w w1 e Hsleep Hone)
      as (_ & _ & [[Hs _] | (r & Hr & Hs & _)]).
    + assert (Heq : total_slept w1 = total_slept w)
        by (unfold total_slept; now rewrite Hs).
      cbn [length]. split; [now rewrite Hlen |].
      unfold Microsecond in *. nia.
    + assert (Heq : total_slept w1 = r * Microsecond + total_slept w)
        by (unfold total_slept; rewrite Hs; reflexivity).
      cbn [length]. split; [now rewrite Hlen |].
      unfold Microsecond in *. nia.
Qed.

Lemma FailMaybe_times_sleeps_less_than_n_bounds_witness :
  length [@None error; None] = 2%nat
  /\ total_slept zero_world
     <= total_slept (World (fun _ => 0) 6 [0; 0])
     <= total_slept zero_world
        + Z.of_nat 2
          * ((maxDelayMicros
                {| failurePpm := 0; delayPpm := OneMillion;
                   maxDelayMicros := 50; DelayFn := time_Sleep |} - 1)
             * Microsecond).
Proof.
  apply (FailMaybe_times_sleeps_less_than_n_bounds 2
           {| failurePpm := 0; delayPpm := OneMillion;
              maxDelayMicros := 50; DelayFn := time_Sleep |}
           zero_world (World (fun _ => 0) 6 [0; 0]) [None; None]).
  - reflexivity.
  - vm_compute. reflexivity.
  - reflexivity.
Defined.

(** X15.  The accept loop starts one handler for each connection it accepts, in
    the order of the accepts, whether the accept-time generator (any
    generator) injects a failure for it or not. *)
Theorem serve_starts_a_handler_for_every_accepted_connection
    (cs : list conn) (t t' : testTCPProxy)
    (Hserve : serve (map Accepted cs) t = Returned (tt, t')) :
  handlers t' = rev cs ++ handlers t
  /\ wg t' = wg t + Z.of_nat (length cs)
  /\ serving t' = serving t.
Proof.
  revert t Hserve. induction cs as [| c cs IH]; intros t Hserve.
  - injection Hserve as <-. cbn. repeat split. lia.
  - cbn [map serve] in Hserve. unfold bind at 1 in Hserve.
    destruct (serve_iter (Accepted c) t) as [[b t1] | msg] eqn:Hiter;
      [| discriminate].
    destruct (serve_iter_accounts _ _ _ _ Hiter)
      as (-> & Hh & Hw & _ & Hs & _).
    destruct (IH t1 Hserve) as (Hh' & Hw' & Hs').
    rewrite Hh', Hw', Hs', Hh, Hw, Hs. cbn [rev length].
    rewrite <- app_assoc. cbn [app]. repeat split. lia.
Qed.

Lemma serve_starts_a_handler_for_every_accepted_connection_witness :
  handlers after_one_drop = rev [1%nat] ++ handlers scenario.blocked_relay
  /\ wg after_one_drop
     = wg scenario.blocked_relay + Z.of_nat (length [1%nat])
  /\ serving after_one_drop = serving scenario.blocked_relay.
Proof.
  apply (serve_starts_a_handler_for_every_accepted_connection [1%nat]
           scenario.blocked_relay after_one_drop).
  reflexivity.
Defined.

End run_facts.
